(** * Grbl_Esp32 — Motors/TrinamicDriverClass.cpp

    A shallow embedding of the Trinamic SPI stepper driver class and the
    properties of its mode selection, threshold calculation, connectivity
    test, settings synchronisation and diagnostics.

    Floating point follows the source: [float] is IEEE-754 binary32,
    [double] is binary64, and every operation is the one of the standard
    library's executable specification [SpecFloat] (round to nearest, ties
    to even). *)

From Stdlib Require Import ZArith List String Bool Lia Reals Lra Psatz.
From Stdlib Require Import QArith Qround.
From Stdlib Require Import Floats.SpecFloat.
Import ListNotations.
Local Open Scope Z_scope.

(** ** IEEE-754 arithmetic as the C++ expressions use it *)

Module IEEE.

(** Conversion between formats, and from integers: round to the target. *)
Definition SFconv (prec emax : Z) (x : spec_float) : spec_float :=
  match x with
  | S754_finite s m e => binary_round prec emax s m e
  | _ => x
  end.

(** [double] operations. *)
Definition f64_mul : spec_float -> spec_float -> spec_float := SFmul 53 1024.
Definition f64_div : spec_float -> spec_float -> spec_float := SFdiv 53 1024.
Definition f64_of_f32 : spec_float -> spec_float := SFconv 53 1024.
Definition f64_of_Z (z : Z) : spec_float := binary_normalize 53 1024 z 0 false.

(** [float] conversions. *)
Definition f32_of_f64 : spec_float -> spec_float := SFconv 24 128.
Definition f32_of_Z (z : Z) : spec_float := binary_normalize 24 128 z 0 false.

(** Truncation toward zero of the magnitude [m * 2^e]. *)
Definition trunc_mag (m : positive) (e : Z) : Z :=
  match e with
  | Zneg p => Z.shiftr (Zpos m) (Zpos p)
  | _ => Z.shiftl (Zpos m) e
  end.

(** [(uint32_t) x]: the fractional part is discarded; the conversion is
    undefined when the truncated value is not in [0, 2^32), and for
    infinities and NaN. *)
Definition u32_of_float (x : spec_float) : option Z :=
  match x with
  | S754_zero _ => Some 0
  | S754_finite s m e =>
      let t := trunc_mag m e in
      if s then (if t =? 0 then Some 0 else None)
      else if t <? 2 ^ 32 then Some t else None
  | _ => None
  end.

End IEEE.

(** ** Values, collaborators and the effects of the class *)

(** Arguments handed to a collaborator, before the callee converts them to
    its own parameter types. *)
Inductive cval :=
| VInt (z : Z)
| VDouble (x : spec_float)
| VStr (s : string)
| VFmt (fmt : string) (arg : Z).     (* a buffer filled by sprintf *)

(** The methods of the TMCStepper object that the class calls to configure
    the chip. *)
Module TMC.
Inductive chip := TMC2130Stepper | TMC5160Stepper.

Inductive method :=
| begin | setSPISpeed | microsteps | rms_current | sgt
| toff | en_pwm_mode | pwm_autoscale
| tbl | hysteresis_start | hysteresis_end | sfilt
| diag1_pushpull | diag1_stall | TCOOLTHRS | THIGH.

Definition method_eq_dec (a b : method) : {a = b} + {a <> b}.
Proof. decide equality. Defined.

(** What the chip answers to the read accessors. *)
Record responses := {
  test_connection : Z;
  TSTEP : Z;
  stallguard : Z;
  sg_result : Z
}.
End TMC.

(** Everything the class does to the outside, in program order. *)
Inductive event :=
| grbl_msg_sendf (fmt : string) (args : list cval)
| digitalWrite (pin : Z) (val : Z)
| pinMode (pin : Z) (mode : Z)
| SPI_begin
| set_axis_name
| init_step_dir_pins
| tmc (m : TMC.method) (args : list cval).

(** Macros of TrinamicDriverClass.h, of the machine definition and of the
    Arduino core.  None of them is defined in the translation unit: they
    are parameters of the model. *)
Record Header := {
  MAX_AXES : Z;
  TRINAMIC_SPI_MOTOR : Z;
  I2S_OUT_PIN_BASE : Z;
  TRINAMIC_SPI_FREQ : Z;
  TMCSTEPPER_VERSION : Z;
  HIGH : Z;
  OUTPUT : Z;
  TRINAMIC_HOMING_STALLGUARD : Z;
  TRINAMIC_RUN_MODE : Z;
  TRINAMIC_RUN_MODE_STEALTHCHOP : Z;
  TRINAMIC_RUN_MODE_COOLSTEP : Z;
  TRINAMIC_RUN_MODE_STALLGUARD : Z;
  NORMAL_TCOOLTHRS : Z;
  NORMAL_THIGH : Z;
  TRINAMIC_FCLK : spec_float;      (* a [double] constant *)
  USE_TRINAMIC_ENABLE : bool       (* whether the macro is defined *)
}.

(** [axis_settings[i]]: the per-axis settings read through [->get()]. *)
Record AxisSettings := {
  steps_per_mm : spec_float;       (* float *)
  microsteps : Z;                  (* int32_t *)
  run_current : spec_float;        (* float *)
  hold_current : spec_float;       (* float *)
  stallguard : Z                   (* int32_t *)
}.

(** Globals and collaborators the class reads. *)
Record Globals := {
  axis_settings : Z -> AxisSettings;
  homing_feed_rate : spec_float;           (* float *)
  st_get_realtime_rate : spec_float;       (* float *)
  pinName : Z -> string;
  axis_name_of : Z -> Z -> string;         (* what set_axis_name() stores *)
  chip : TMC.responses
}.

(** The object.  [tmcstepper = None] is the pointer that was never
    assigned a driver object. *)
Record TrinamicDriver := {
  type_id : Z;
  axis_index : Z;
  dual_axis_index : Z;
  _driver_part_number : Z;
  _r_sense : spec_float;
  step_pin : Z;
  dir_pin : Z;
  disable_pin : Z;
  cs_pin : Z;
  spi_index : Z;
  tmcstepper : option TMC.chip;
  _axis_name : string;
  _is_homing : bool;
  _homing_mode : Z;
  _mode : Z;
  is_active : bool
}.

Definition with_axis_name (s : string) (t : TrinamicDriver) : TrinamicDriver :=
  {| type_id := type_id t; axis_index := axis_index t;
     dual_axis_index := dual_axis_index t;
     _driver_part_number := _driver_part_number t; _r_sense := _r_sense t;
     step_pin := step_pin t; dir_pin := dir_pin t;
     disable_pin := disable_pin t; cs_pin := cs_pin t;
     spi_index := spi_index t; tmcstepper := tmcstepper t;
     _axis_name := s; _is_homing := _is_homing t;
     _homing_mode := _homing_mode t; _mode := _mode t;
     is_active := is_active t |}.

Definition with_is_homing (b : bool) (t : TrinamicDriver) : TrinamicDriver :=
  {| type_id := type_id t; axis_index := axis_index t;
     dual_axis_index := dual_axis_index t;
     _driver_part_number := _driver_part_number t; _r_sense := _r_sense t;
     step_pin := step_pin t; dir_pin := dir_pin t;
     disable_pin := disable_pin t; cs_pin := cs_pin t;
     spi_index := spi_index t; tmcstepper := tmcstepper t;
     _axis_name := _axis_name t; _is_homing := b;
     _homing_mode := _homing_mode t; _mode := _mode t;
     is_active := is_active t |}.

Definition with_homing_mode (z : Z) (t : TrinamicDriver) : TrinamicDriver :=
  {| type_id := type_id t; axis_index := axis_index t;
     dual_axis_index := dual_axis_index t;
     _driver_part_number := _driver_part_number t; _r_sense := _r_sense t;
     step_pin := step_pin t; dir_pin := dir_pin t;
     disable_pin := disable_pin t; cs_pin := cs_pin t;
     spi_index := spi_index t; tmcstepper := tmcstepper t;
     _axis_name := _axis_name t; _is_homing := _is_homing t;
     _homing_mode := z; _mode := _mode t;
     is_active := is_active t |}.

Definition with_mode (z : Z) (t : TrinamicDriver) : TrinamicDriver :=
  {| type_id := type_id t; axis_index := axis_index t;
     dual_axis_index := dual_axis_index t;
     _driver_part_number := _driver_part_number t; _r_sense := _r_sense t;
     step_pin := step_pin t; dir_pin := dir_pin t;
     disable_pin := disable_pin t; cs_pin := cs_pin t;
     spi_index := spi_index t; tmcstepper := tmcstepper t;
     _axis_name := _axis_name t; _is_homing := _is_homing t;
     _homing_mode := _homing_mode t; _mode := z;
     is_active := is_active t |}.

Definition with_is_active (b : bool) (t : TrinamicDriver) : TrinamicDriver :=
  {| type_id := type_id t; axis_index := axis_index t;
     dual_axis_index := dual_axis_index t;
     _driver_part_number := _driver_part_number t; _r_sense := _r_sense t;
     step_pin := step_pin t; dir_pin := dir_pin t;
     disable_pin := disable_pin t; cs_pin := cs_pin t;
     spi_index := spi_index t; tmcstepper := tmcstepper t;
     _axis_name := _axis_name t; _is_homing := _is_homing t;
     _homing_mode := _homing_mode t; _mode := _mode t;
     is_active := b |}.

(** ** A state and error monad for the member functions *)

(** Ways a call leaves defined behaviour. *)
Inductive fault :=
| null_driver            (* a call through [tmcstepper] with no object behind it *)
| int_div_by_zero        (* integer [/] or [%] by zero *)
| float_to_uint_range.   (* float to unsigned conversion out of range *)

Inductive outcome (A : Type) :=
| Ok (a : A)
| Fault (f : fault).
Arguments Ok {A} a.
Arguments Fault {A} f.

Record world := {
  this : TrinamicDriver;
  out : list event
}.

Definition M (A : Type) : Type := world -> outcome A * world.

Definition ret {A} (a : A) : M A := fun w => (Ok a, w).

Definition bind {A B} (c : M A) (k : A -> M B) : M B :=
  fun w =>
    match c w with
    | (Ok a, w') => k a w'
    | (Fault f, w') => (Fault f, w')
    end.

Notation "x <- c ;; k" := (bind c (fun x => k))
  (at level 61, c at next level, right associativity).
Notation "c ;; k" := (bind c (fun _ => k))
  (at level 61, right associativity).

Definition emit (e : event) : M unit :=
  fun w => (Ok tt, {| this := this w; out := out w ++ [e] |}).

Definition get : M TrinamicDriver := fun w => (Ok (this w), w).

Definition modify (f : TrinamicDriver -> TrinamicDriver) : M unit :=
  fun w => (Ok tt, {| this := f (this w); out := out w |}).

Definition lift {A} (o : outcome A) : M A := fun w => (o, w).

(** [tmcstepper->m(args)]: a configuration call on the driver object. *)
Definition call (m : TMC.method) (args : list cval) : M unit :=
  fun w =>
    match tmcstepper (this w) with
    | Some _ => (Ok tt, {| this := this w; out := out w ++ [tmc m args] |})
    | None => (Fault null_driver, w)
    end.

(** [tmcstepper->f()]: a read accessor of the driver object. *)
Definition query (g : Globals) (f : TMC.responses -> Z) : M Z :=
  fun w =>
    match tmcstepper (this w) with
    | Some _ => (Ok (f (chip g)), w)
    | None => (Fault null_driver, w)
    end.

(** ** The member functions *)

Section Members.
Variable hd : Header.
Variable g : Globals.

(** [calc_tstep]: the first statement is evaluated in [double] (the
    literal [60.0] promotes every operand) and stored into a [float];
    the quotient [256 / microsteps] is an [int] division, converted to
    [float] afterwards.  The second statement is again [double]
    arithmetic stored into a [float], which the return converts to
    [uint32_t]. *)
Definition calc_tstep (axis : Z) (speed percent : spec_float) : outcome Z :=
  let s := axis_settings g axis in
  if microsteps s =? 0 then Fault int_div_by_zero
  else
    let factor := IEEE.f32_of_Z (Z.quot 256 (microsteps s)) in
    let tstep :=
      IEEE.f32_of_f64
        (IEEE.f64_mul
           (IEEE.f64_mul
              (IEEE.f64_div (IEEE.f64_of_f32 speed) (IEEE.f64_of_Z 60))
              (IEEE.f64_of_f32 (steps_per_mm s)))
           (IEEE.f64_of_f32 factor)) in
    let tstep :=
      IEEE.f32_of_f64
        (IEEE.f64_div
           (IEEE.f64_mul
              (IEEE.f64_div (TRINAMIC_FCLK hd) (IEEE.f64_of_f32 tstep))
              (IEEE.f64_of_f32 percent))
           (IEEE.f64_of_Z 100)) in
    match IEEE.u32_of_float tstep with
    | Some n => Ok n
    | None => Fault float_to_uint_range
    end.

Definition config_message : M unit :=
  t <- get ;;
  emit (grbl_msg_sendf
          "%s Axis Trinamic TMC%d Step:%s Dir:%s CS:%s Disable:%s Index:%d"
          [VStr (_axis_name t); VInt (_driver_part_number t);
           VStr (pinName g (step_pin t)); VStr (pinName g (dir_pin t));
           VStr (pinName g (cs_pin t)); VStr (pinName g (disable_pin t));
           VInt (spi_index t)]).

Definition test : M bool :=
  let lib_ver := VFmt "TMCStepper Ver 0x%06x" (TMCSTEPPER_VERSION hd) in
  t <- get ;;
  r <- query g TMC.test_connection ;;
  if r =? 1 then
    emit (grbl_msg_sendf
            "%s Trinamic driver test failed. Check connection. %s"
            [VStr (_axis_name t); lib_ver]) ;;
    ret false
  else if r =? 2 then
    emit (grbl_msg_sendf
            "%s Trinamic driver test failed. Check motor power. %s"
            [VStr (_axis_name t); lib_ver]) ;;
    ret false
  else
    emit (grbl_msg_sendf
            "%s Trinamic driver test passed. %s"
            [VStr (_axis_name t); lib_ver]) ;;
    ret true.

Definition read_settings : M unit :=
  t <- get ;;
  let s := axis_settings g (axis_index t) in
  call TMC.microsteps [VInt (microsteps s)] ;;
  call TMC.rms_current
       [VDouble (IEEE.f64_mul (IEEE.f64_of_f32 (run_current s))
                              (IEEE.f64_of_Z 1000));
        VDouble (IEEE.f64_div (IEEE.f64_of_f32 (hold_current s))
                              (IEEE.f64_of_Z 100))] ;;
  call TMC.sgt [VInt (stallguard s)].

(** The mode the first statement of [set_mode] stores into [_mode]. *)
Definition select_mode (t : TrinamicDriver) : Z :=
  if _is_homing t && (_homing_mode t =? TRINAMIC_HOMING_STALLGUARD hd)
  then TRINAMIC_RUN_MODE_STALLGUARD hd
  else TRINAMIC_RUN_MODE hd.

Definition set_mode : M unit :=
  t <- get ;;
  let m := select_mode t in
  modify (with_mode m) ;;
  if m =? TRINAMIC_RUN_MODE_STEALTHCHOP hd then
    call TMC.toff [VInt 5] ;;
    call TMC.en_pwm_mode [VInt 1] ;;
    call TMC.pwm_autoscale [VInt 1]
  else
    call TMC.tbl [VInt 1] ;;
    call TMC.toff [VInt 3] ;;
    call TMC.hysteresis_start [VInt 4] ;;
    call TMC.hysteresis_end [VInt (-2)] ;;
    call TMC.sfilt [VInt 1] ;;
    call TMC.diag1_pushpull [VInt 0] ;;
    call TMC.diag1_stall [VInt 1] ;;
    if m =? TRINAMIC_RUN_MODE_COOLSTEP hd then
      call TMC.TCOOLTHRS [VInt (NORMAL_TCOOLTHRS hd)] ;;
      call TMC.THIGH [VInt (NORMAL_THIGH hd)]
    else
      tcoolthrs <- lift (calc_tstep (axis_index t) (homing_feed_rate g)
                           (IEEE.f32_of_f64 (IEEE.f64_of_Z 150))) ;;
      thigh <- lift (calc_tstep (axis_index t) (homing_feed_rate g)
                       (IEEE.f32_of_f64 (IEEE.f64_of_Z 60))) ;;
      call TMC.TCOOLTHRS [VInt tcoolthrs] ;;
      call TMC.THIGH [VInt thigh].

Definition set_homing_mode (is_homing : bool) : M unit :=
  modify (with_homing_mode (Z.b2z is_homing)) ;;
  set_mode.

Definition init : M unit :=
  emit SPI_begin ;;
  call TMC.begin [] ;;
  test ;;
  read_settings ;;
  set_mode ;;
  modify (with_is_homing false) ;;
  modify (with_is_active true).

(** [tstep == -1] compares a [uint32_t] with [-1], that is with
    [0xFFFFFFFF]. *)
Definition not_moving (tstep : Z) : bool :=
  (tstep =? 0xFFFFF) || (tstep =? 0xFFFFFFFF).

Definition debug_message : M unit :=
  tstep <- query g TMC.TSTEP ;;
  if not_moving tstep then ret tt
  else
    let feedrate := st_get_realtime_rate g in
    t <- get ;;
    sg <- query g TMC.stallguard ;;
    sgv <- query g TMC.sg_result ;;
    emit (grbl_msg_sendf
            "%s Stallguard %d   SG_Val: %04d   Rate: %05.0f mm/min SG_Setting:%d"
            [VStr (_axis_name t); VInt sg; VInt sgv;
             VDouble (IEEE.f64_of_f32 feedrate);
             VInt (stallguard (axis_settings g (axis_index t)))]).

Definition set_disable (disable : bool) : M unit :=
  t <- get ;;
  emit (digitalWrite (disable_pin t) (Z.b2z disable)) ;;
  if USE_TRINAMIC_ENABLE hd then
    if disable then call TMC.toff [VInt 0]
    else set_mode
  else ret tt.

(** The members the constructor assigns, over the storage [raw] of the
    new object: the members it does not assign keep what [raw] holds. *)
Definition assigned (raw : TrinamicDriver)
    (axis_index' step_pin' dir_pin' disable_pin' cs_pin'
       driver_part_number : Z)
    (r_sense : spec_float) (spi_index' : Z) (drv : option TMC.chip)
  : TrinamicDriver :=
  {| type_id := TRINAMIC_SPI_MOTOR hd;
     axis_index := Z.rem axis_index' (MAX_AXES hd);
     dual_axis_index := if axis_index' <? 6 then 0 else 1;
     _driver_part_number := driver_part_number;
     _r_sense := r_sense;
     step_pin := step_pin'; dir_pin := dir_pin';
     disable_pin := disable_pin'; cs_pin := cs_pin';
     spi_index := spi_index';
     tmcstepper := drv;
     _axis_name := _axis_name raw; _is_homing := _is_homing raw;
     _homing_mode := _homing_mode raw; _mode := _mode raw;
     is_active := is_active raw |}.

(** The constructor: [tmcstepper] stays without an object on the
    unsupported branch, which returns right after its message. *)
Definition new_TrinamicDriver (raw : TrinamicDriver)
    (axis_index' step_pin' dir_pin' disable_pin' cs_pin'
       driver_part_number : Z)
    (r_sense : spec_float) (spi_index' : Z) : M unit :=
  if MAX_AXES hd =? 0 then lift (Fault int_div_by_zero)
  else
    let obj := assigned raw axis_index' step_pin' dir_pin' disable_pin'
                        cs_pin' driver_part_number r_sense spi_index' in
    let rest : M unit :=
      emit set_axis_name ;;
      t <- get ;;
      modify (with_axis_name
                (axis_name_of g (axis_index t) (dual_axis_index t))) ;;
      emit init_step_dir_pins ;;
      emit (digitalWrite cs_pin' (HIGH hd)) ;;
      emit (pinMode cs_pin' (OUTPUT hd)) ;;
      (if I2S_OUT_PIN_BASE hd <=? cs_pin'
       then call TMC.setSPISpeed [VInt (TRINAMIC_SPI_FREQ hd)]
       else ret tt) ;;
      config_message in
    if driver_part_number =? 2130 then
      modify (fun _ => obj (Some TMC.TMC2130Stepper)) ;; rest
    else if driver_part_number =? 5160 then
      modify (fun _ => obj (Some TMC.TMC5160Stepper)) ;; rest
    else
      modify (fun _ => obj None) ;;
      emit (grbl_msg_sendf "Trinamic unsupported p/n:%d"
                           [VInt driver_part_number]).

End Members.

Arguments calc_tstep : simpl never.

(** ** Observations on worlds and traces *)

(** The world after one more event. *)
Definition say (w : world) (e : event) : world :=
  {| this := this w; out := out w ++ [e] |}.

Definition says (w : world) (es : list event) : world :=
  {| this := this w; out := out w ++ es |}.

(** The chip's configuration as the driver calls leave it: per method, the
    arguments of its last call. *)
Definition regfile : Type := TMC.method -> option (list cval).

Definition write (rf : regfile) (e : event) : regfile :=
  match e with
  | tmc m args => fun m' => if TMC.method_eq_dec m' m then Some args else rf m'
  | _ => rf
  end.

Definition regs_of (tr : list event) : regfile :=
  fold_left write tr (fun _ => None).

Definition is_tmc (e : event) : bool :=
  match e with tmc _ _ => true | _ => false end.

(** The driver calls of a trace. *)
Definition tmc_calls (tr : list event) : list event := filter is_tmc tr.

(** An operation that returns normally and configures nothing on the chip. *)
Definition graceful {A} (op : M A) (w : world) : Prop :=
  exists a w', op w = (Ok a, w') /\ tmc_calls (out w') = tmc_calls (out w).

(** The register writes common to the CoolStep and stallguard branches of
    [set_mode]. *)
Definition coolstep_baseline : list event :=
  [tmc TMC.tbl [VInt 1]; tmc TMC.toff [VInt 3];
   tmc TMC.hysteresis_start [VInt 4]; tmc TMC.hysteresis_end [VInt (-2)];
   tmc TMC.sfilt [VInt 1]; tmc TMC.diag1_pushpull [VInt 0];
   tmc TMC.diag1_stall [VInt 1]].

(** The three reports of [test], for the object [t]. *)
Section TestMessages.
Variable hd : Header.
Variable t : TrinamicDriver.

Definition lib_ver : cval :=
  VFmt "TMCStepper Ver 0x%06x" (TMCSTEPPER_VERSION hd).

Definition check_connection : event :=
  grbl_msg_sendf "%s Trinamic driver test failed. Check connection. %s"
                 [VStr (_axis_name t); lib_ver].
Definition check_motor_power : event :=
  grbl_msg_sendf "%s Trinamic driver test failed. Check motor power. %s"
                 [VStr (_axis_name t); lib_ver].
Definition test_passed : event :=
  grbl_msg_sendf "%s Trinamic driver test passed. %s"
                 [VStr (_axis_name t); lib_ver].
End TestMessages.

(** ** A concrete machine, for evaluation *)

Definition sample_header : Header :=
  {| MAX_AXES := 6; TRINAMIC_SPI_MOTOR := 1; I2S_OUT_PIN_BASE := 128;
     TRINAMIC_SPI_FREQ := 100000; TMCSTEPPER_VERSION := 0x000703;
     HIGH := 1; OUTPUT := 2;
     TRINAMIC_HOMING_STALLGUARD := 1;
     TRINAMIC_RUN_MODE := 1;
     TRINAMIC_RUN_MODE_STEALTHCHOP := 0;
     TRINAMIC_RUN_MODE_COOLSTEP := 1;
     TRINAMIC_RUN_MODE_STALLGUARD := 2;
     NORMAL_TCOOLTHRS := 0xFFFFF; NORMAL_THIGH := 0;
     TRINAMIC_FCLK := IEEE.f64_of_Z 12000000;
     USE_TRINAMIC_ENABLE := true |}.

Definition sample_axis (ms : Z) : AxisSettings :=
  {| steps_per_mm := IEEE.f32_of_Z 80; microsteps := ms;
     run_current := IEEE.f32_of_Z 1; hold_current := IEEE.f32_of_Z 50;
     stallguard := 16 |}.

Definition sample_globals (ms : Z) : Globals :=
  {| axis_settings := fun _ => sample_axis ms;
     homing_feed_rate := IEEE.f32_of_Z 600;
     st_get_realtime_rate := IEEE.f32_of_Z 600;
     pinName := fun _ => "GPIO"%string;
     axis_name_of := fun _ _ => "X"%string;
     chip := {| TMC.test_connection := 0; TMC.TSTEP := 1406;
                TMC.stallguard := 0; TMC.sg_result := 300 |} |}.

(** Storage of an object before its constructor ran; the homing strategy
    member already holds the stallguard strategy. *)
Definition sample_raw : TrinamicDriver :=
  {| type_id := 0; axis_index := 0; dual_axis_index := 0;
     _driver_part_number := 0; _r_sense := S754_zero false;
     step_pin := 0; dir_pin := 0; disable_pin := 0; cs_pin := 0;
     spi_index := 0; tmcstepper := None; _axis_name := ""%string;
     _is_homing := false; _homing_mode := 1; _mode := 0;
     is_active := false |}.

Definition sample_new (part_number : Z) : outcome unit * world :=
  new_TrinamicDriver sample_header (sample_globals 16) sample_raw
    0 12 14 13 17 part_number (IEEE.f32_of_Z 0) 1
    {| this := sample_raw; out := [] |}.

(** The sample object after [init()]. *)
Definition sample_ready (part_number : Z) : outcome unit * world :=
  init sample_header (sample_globals 16) (snd (sample_new part_number)).

(** ** Real-number semantics of the floating-point formats *)

Definition pow2 (e : Z) : R := powerRZ 2 e.

Definition F2R (m e : Z) : R := (IZR m * pow2 e)%R.

Definition B2R (x : spec_float) : R :=
  match x with
  | S754_finite s m e => F2R (cond_Zopp s (Zpos m)) e
  | _ => 0%R
  end.


(** [y] lies in [m, m+1), at the place [l] relative to [m] and [m + 1/2]. *)
Definition located (y : R) (m : Z) (l : location) : Prop :=
  match l with
  | loc_Exact => y = IZR m
  | loc_Inexact Lt => (IZR m < y < IZR m + / 2)%R
  | loc_Inexact Eq => y = (IZR m + / 2)%R
  | loc_Inexact Gt => (IZR m + / 2 < y < IZR m + 1)%R
  end.

(** [n] is the integer nearest to [y], the even one on a tie. *)
Definition nearest_even (y : R) (n : Z) : Prop :=
  (IZR n - / 2 <= y <= IZR n + / 2)%R /\
  (y = (IZR n - / 2)%R \/ y = (IZR n + / 2)%R -> Z.even n = true).

Section RoundingSpec.
Variables prec emax : Z.

(** [E] is the exponent at which [x > 0] is rounded. *)
Definition exp_ok (x : R) (E : Z) : Prop :=
  (E = emin prec emax /\ (x < pow2 (emin prec emax + prec))%R) \/
  (emin prec emax < E /\ (pow2 (E + prec - 1) <= x < pow2 (E + prec))%R).

(** The float with integer significand [n] at exponent [E], once a
    significand that reached [2^prec] is renormalised and the exponent
    range is checked. *)
Definition pack (n E : Z) : spec_float :=
  if n =? 0 then S754_zero false
  else
    let '(n', E') :=
      if n =? 2 ^ prec then (2 ^ (prec - 1), E + 1) else (n, E) in
    if E' <=? emax - prec then S754_finite false (Z.to_pos n') E'
    else S754_infinity false.

(** [f] is [x > 0] rounded to nearest, ties to even. *)
Definition rounds_to (x : R) (f : spec_float) : Prop :=
  exists E n, exp_ok x E /\ nearest_even (x / pow2 E) n /\ f = pack n E.
End RoundingSpec.


(** Non-negative, well-formed values of a format: [+0], a positive finite
    number in canonical form, or [+infinity]. *)
Definition nonneg (prec emax : Z) (f : spec_float) : bool :=
  match f with
  | S754_zero s => negb s
  | S754_infinity s => negb s
  | S754_finite s m e => negb s && bounded prec emax m e
  | S754_nan => false
  end.

(** Positive finite well-formed values. *)
Definition posfin (prec emax : Z) (f : spec_float) : bool :=
  match f with
  | S754_finite s m e => negb s && bounded prec emax m e
  | _ => false
  end.


(** ** The parts of [calc_tstep] *)

(** [(float)(256 / microsteps)]. *)
Definition microstep_factor (ms : Z) : spec_float :=
  IEEE.f32_of_Z (Z.quot 256 ms).

(** The first assignment to [tstep]: the rate of 1/256 steps. *)
Definition step_rate (s : AxisSettings) (speed : spec_float) : spec_float :=
  IEEE.f32_of_f64
    (IEEE.f64_mul
       (IEEE.f64_mul
          (IEEE.f64_div (IEEE.f64_of_f32 speed) (IEEE.f64_of_Z 60))
          (IEEE.f64_of_f32 (steps_per_mm s)))
       (IEEE.f64_of_f32 (microstep_factor (microsteps s)))).

(** The second assignment to [tstep]. *)
Definition tstep_value (fclk rate percent : spec_float) : spec_float :=
  IEEE.f32_of_f64
    (IEEE.f64_div
       (IEEE.f64_mul
          (IEEE.f64_div fclk (IEEE.f64_of_f32 rate))
          (IEEE.f64_of_f32 percent))
       (IEEE.f64_of_Z 100)).

(** The microstep resolutions of the chip. *)
Definition microstep_settings : list Z := [1; 2; 4; 8; 16; 32; 64; 128; 256].



(** The sample machine with a chip that does not answer the probe. *)
Definition sample_disconnected : Globals :=
  {| axis_settings := axis_settings (sample_globals 16);
     homing_feed_rate := homing_feed_rate (sample_globals 16);
     st_get_realtime_rate := st_get_realtime_rate (sample_globals 16);
     pinName := pinName (sample_globals 16);
     axis_name_of := axis_name_of (sample_globals 16);
     chip := {| TMC.test_connection := 1; TMC.TSTEP := 0xFFFFF;
                TMC.stallguard := 0; TMC.sg_result := 0 |} |}.

(** The sample machine built without USE_TRINAMIC_ENABLE. *)
Definition sample_header_pin_only : Header :=
  {| MAX_AXES := MAX_AXES sample_header;
     TRINAMIC_SPI_MOTOR := TRINAMIC_SPI_MOTOR sample_header;
     I2S_OUT_PIN_BASE := I2S_OUT_PIN_BASE sample_header;
     TRINAMIC_SPI_FREQ := TRINAMIC_SPI_FREQ sample_header;
     TMCSTEPPER_VERSION := TMCSTEPPER_VERSION sample_header;
     HIGH := HIGH sample_header; OUTPUT := OUTPUT sample_header;
     TRINAMIC_HOMING_STALLGUARD := TRINAMIC_HOMING_STALLGUARD sample_header;
     TRINAMIC_RUN_MODE := TRINAMIC_RUN_MODE sample_header;
     TRINAMIC_RUN_MODE_STEALTHCHOP := TRINAMIC_RUN_MODE_STEALTHCHOP sample_header;
     TRINAMIC_RUN_MODE_COOLSTEP := TRINAMIC_RUN_MODE_COOLSTEP sample_header;
     TRINAMIC_RUN_MODE_STALLGUARD := TRINAMIC_RUN_MODE_STALLGUARD sample_header;
     NORMAL_TCOOLTHRS := NORMAL_TCOOLTHRS sample_header;
     NORMAL_THIGH := NORMAL_THIGH sample_header;
     TRINAMIC_FCLK := TRINAMIC_FCLK sample_header;
     USE_TRINAMIC_ENABLE := false |}.




(** * Properties *)

(** ** Running the monad *)

Lemma call_some (m : TMC.method) (args : list cval) (w : world) (c : TMC.chip) :
  tmcstepper (this w) = Some c -> call m args w = (Ok tt, say w (tmc m args)).
Proof. intros H. unfold call, say. now rewrite H. Qed.

Lemma call_none (m : TMC.method) (args : list cval) (w : world) :
  tmcstepper (this w) = None -> call m args w = (Fault null_driver, w).
Proof. intros H. unfold call. now rewrite H. Qed.

Lemma query_some (g : Globals) (f : TMC.responses -> Z) (w : world) (c : TMC.chip) :
  tmcstepper (this w) = Some c -> query g f w = (Ok (f (chip g)), w).
Proof. intros H. unfold query. now rewrite H. Qed.

Lemma query_none (g : Globals) (f : TMC.responses -> Z) (w : world) :
  tmcstepper (this w) = None -> query g f w = (Fault null_driver, w).
Proof. intros H. unfold query. now rewrite H. Qed.

Lemma say_inj (w : world) (e1 e2 : event) : say w e1 = say w e2 -> e1 = e2.
Proof.
  unfold say. intros H. injection H as H'.
  apply app_inv_head in H'. now injection H'.
Qed.

Ltac run := unfold bind, ret, get, modify, emit, lift; cbn.

(** ** Connectivity test *)

Lemma test_run (hd : Header) (g : Globals) (w : world) (c : TMC.chip) :
  tmcstepper (this w) = Some c ->
  test hd g w =
    let code := TMC.test_connection (chip g) in
    if code =? 1 then (Ok false, say w (check_connection hd (this w)))
    else if code =? 2 then (Ok false, say w (check_motor_power hd (this w)))
    else (Ok true, say w (test_passed hd (this w))).
Proof.
  intros H. unfold test. run. rewrite (query_some g _ w c H).
  cbn. destruct (_ =? 1); [reflexivity|]. destruct (_ =? 2); reflexivity.
Qed.

(** C5: with a driver object present, [test] reports "Check connection"
    and returns false exactly when the probe code is 1, reports "Check
    motor power" and returns false exactly when it is 2, and for every
    other code reports "test passed" and returns true. *)
Theorem test_outcomes (hd : Header) (g : Globals) (w : world) (c : TMC.chip)
    (Hdrv : tmcstepper (this w) = Some c) :
  let code := TMC.test_connection (chip g) in
  (test hd g w = (Ok false, say w (check_connection hd (this w))) <-> code = 1) /\
  (test hd g w = (Ok false, say w (check_motor_power hd (this w))) <-> code = 2) /\
  (test hd g w = (Ok true, say w (test_passed hd (this w))) <-> (code <> 1 /\ code <> 2)).
Proof.
  intros code. rewrite (test_run hd g w c Hdrv). fold code. cbv zeta.
  destruct (Z.eqb_spec code 1) as [E1|N1];
    [|destruct (Z.eqb_spec code 2) as [E2|N2]];
    (split; [|split]); (split; intros Hx);
    try reflexivity; try lia; try discriminate;
    try (apply (f_equal snd) in Hx; cbn [snd] in Hx; apply say_inj in Hx;
         unfold check_connection, check_motor_power, test_passed in Hx;
         discriminate).
Qed.

Lemma test_outcomes_witness :
  let w := snd (sample_new 2130) in
  (test sample_header (sample_globals 16) w
     = (Ok true, say w (test_passed sample_header (this w)))
   <-> (TMC.test_connection (chip (sample_globals 16)) <> 1 /\
        TMC.test_connection (chip (sample_globals 16)) <> 2)).
Proof.
  intros w.
  exact (proj2 (proj2 (test_outcomes sample_header (sample_globals 16) w
                         TMC.TMC2130Stepper eq_refl))).
Defined.

(** ** Settings synchronisation *)

(** C9: with a driver object present, [read_settings] makes exactly three
    driver calls: the configured microsteps, the RMS current with the run
    current times 1000.0 and the hold current divided by 100.0, and the
    configured stallguard value. *)
Theorem read_settings_pushes (g : Globals) (w : world) (c : TMC.chip)
    (Hdrv : tmcstepper (this w) = Some c) :
  let s := axis_settings g (axis_index (this w)) in
  read_settings g w =
    (Ok tt,
     says w
       [tmc TMC.microsteps [VInt (microsteps s)];
        tmc TMC.rms_current
            [VDouble (IEEE.f64_mul (IEEE.f64_of_f32 (run_current s)) (IEEE.f64_of_Z 1000));
             VDouble (IEEE.f64_div (IEEE.f64_of_f32 (hold_current s)) (IEEE.f64_of_Z 100))];
        tmc TMC.sgt [VInt (stallguard s)]]).
Proof.
  intros s. unfold read_settings. run. fold s.
  rewrite (call_some _ _ w c Hdrv).
  rewrite (call_some _ _ (say w _) c Hdrv).
  rewrite (call_some _ _ (say (say w _) _) c Hdrv).
  unfold say, says. cbn. now rewrite <- !app_assoc.
Qed.

Lemma read_settings_pushes_witness :
  tmc_calls (out (snd (read_settings (sample_globals 16) (snd (sample_new 2130)))))
  = tmc_calls (out (snd (sample_new 2130))) ++
    [tmc TMC.microsteps [VInt 16];
     tmc TMC.rms_current [VDouble (IEEE.f64_of_Z 1000);
                          VDouble (S754_finite false 4503599627370496 (-53))];
     tmc TMC.sgt [VInt 16]].
Proof.
  rewrite (read_settings_pushes (sample_globals 16)
             (snd (sample_new 2130)) TMC.TMC2130Stepper eq_refl).
  vm_compute. reflexivity.
Defined.

(** ** Debug query *)

(** C8: with a driver object present, [debug_message] reads TSTEP; when
    the value is the not-moving sentinel nothing is emitted, otherwise one
    message is emitted carrying the axis name, the stallguard flag, the
    stallguard result, the realtime feed rate and the stallguard setting. *)
Theorem debug_message_reports (g : Globals) (w : world) (c : TMC.chip)
    (Hdrv : tmcstepper (this w) = Some c) :
  (not_moving (TMC.TSTEP (chip g)) = true -> debug_message g w = (Ok tt, w)) /\
  (not_moving (TMC.TSTEP (chip g)) = false ->
   debug_message g w =
     (Ok tt,
      say w (grbl_msg_sendf
               "%s Stallguard %d   SG_Val: %04d   Rate: %05.0f mm/min SG_Setting:%d"
               [VStr (_axis_name (this w));
                VInt (TMC.stallguard (chip g));
                VInt (TMC.sg_result (chip g));
                VDouble (IEEE.f64_of_f32 (st_get_realtime_rate g));
                VInt (stallguard (axis_settings g (axis_index (this w))))]))).
Proof.
  split; intros Hs; unfold debug_message; run;
    rewrite (query_some g _ w c Hdrv); cbn; rewrite Hs; [reflexivity|].
  rewrite !(query_some g _ w c Hdrv). reflexivity.
Qed.

Lemma debug_message_reports_witness :
  out (snd (debug_message (sample_globals 16) (snd (sample_new 2130))))
  = out (snd (sample_new 2130)) ++
    [grbl_msg_sendf
       "%s Stallguard %d   SG_Val: %04d   Rate: %05.0f mm/min SG_Setting:%d"
       [VStr "X"; VInt 0; VInt 300; VDouble (IEEE.f64_of_Z 600); VInt 16]].
Proof.
  rewrite (proj2 (debug_message_reports (sample_globals 16)
                    (snd (sample_new 2130)) TMC.TMC2130Stepper eq_refl) eq_refl).
  vm_compute. reflexivity.
Defined.

(** ** The mode state machine *)

Lemma calls_some (es : list event) (w : world) (c : TMC.chip) :
  tmcstepper (this w) = Some c -> tmcstepper (this (says w es)) = Some c.
Proof. now intros H. Qed.

Lemma set_mode_run (hd : Header) (g : Globals) (w : world) (c : TMC.chip) :
  tmcstepper (this w) = Some c ->
  let m := select_mode hd (this w) in
  let w1 := {| this := with_mode m (this w); out := out w |} in
  set_mode hd g w =
    if m =? TRINAMIC_RUN_MODE_STEALTHCHOP hd then
      (Ok tt, says w1 [tmc TMC.toff [VInt 5]; tmc TMC.en_pwm_mode [VInt 1];
                       tmc TMC.pwm_autoscale [VInt 1]])
    else if m =? TRINAMIC_RUN_MODE_COOLSTEP hd then
      (Ok tt, says w1 (coolstep_baseline ++
                       [tmc TMC.TCOOLTHRS [VInt (NORMAL_TCOOLTHRS hd)];
                        tmc TMC.THIGH [VInt (NORMAL_THIGH hd)]]))
    else
      match calc_tstep hd g (axis_index (this w)) (homing_feed_rate g)
                       (IEEE.f32_of_f64 (IEEE.f64_of_Z 150)),
            calc_tstep hd g (axis_index (this w)) (homing_feed_rate g)
                       (IEEE.f32_of_f64 (IEEE.f64_of_Z 60)) with
      | Ok a, Ok b =>
          (Ok tt, says w1 (coolstep_baseline ++
                           [tmc TMC.TCOOLTHRS [VInt a]; tmc TMC.THIGH [VInt b]]))
      | Fault f, _ => (Fault f, says w1 coolstep_baseline)
      | Ok _, Fault f => (Fault f, says w1 coolstep_baseline)
      end.
Proof.
  intros H m w1. unfold set_mode. run. fold m.
  assert (Hw : forall e, with_mode m (this w) = e -> tmcstepper e = Some c)
    by (intros e <-; exact H).
  unfold call. cbn.
  destruct (m =? TRINAMIC_RUN_MODE_STEALTHCHOP hd).
  - repeat (progress (cbn; rewrite ?H)). unfold says, w1. cbn. now rewrite <- ?app_assoc.
  - destruct (m =? TRINAMIC_RUN_MODE_COOLSTEP hd).
    + repeat (progress (cbn; rewrite ?H)). unfold says, w1. cbn. now rewrite <- ?app_assoc.
    + repeat (progress (cbn; rewrite ?H)).
      repeat match goal with
             | |- context [calc_tstep ?a ?b ?c ?d ?e] =>
                 destruct (calc_tstep a b c d e); cbn
             end;
        repeat (progress (cbn; rewrite ?H));
        unfold says, w1; cbn; now rewrite <- ?app_assoc.
Qed.

(** C6: entering the stallguard mode writes the CoolStep baseline, then
    TCOOLTHRS with [calc_tstep] of the homing feed rate at 150 percent and
    THIGH with [calc_tstep] of it at 60 percent; entering CoolStep writes
    the same baseline, then the two constants NORMAL_TCOOLTHRS and
    NORMAL_THIGH. *)
Theorem set_mode_thresholds (hd : Header) (g : Globals) (w : world) (c : TMC.chip)
    (Hdrv : tmcstepper (this w) = Some c)
    (Hsc : TRINAMIC_RUN_MODE_STEALTHCHOP hd <> TRINAMIC_RUN_MODE_COOLSTEP hd)
    (Hss : TRINAMIC_RUN_MODE_STEALTHCHOP hd <> TRINAMIC_RUN_MODE_STALLGUARD hd)
    (Hcs : TRINAMIC_RUN_MODE_COOLSTEP hd <> TRINAMIC_RUN_MODE_STALLGUARD hd) :
  (forall a b,
     select_mode hd (this w) = TRINAMIC_RUN_MODE_STALLGUARD hd ->
     calc_tstep hd g (axis_index (this w)) (homing_feed_rate g)
                (IEEE.f32_of_f64 (IEEE.f64_of_Z 150)) = Ok a ->
     calc_tstep hd g (axis_index (this w)) (homing_feed_rate g)
                (IEEE.f32_of_f64 (IEEE.f64_of_Z 60)) = Ok b ->
     set_mode hd g w =
       (Ok tt,
        {| this := with_mode (TRINAMIC_RUN_MODE_STALLGUARD hd) (this w);
           out := out w ++ coolstep_baseline ++
                  [tmc TMC.TCOOLTHRS [VInt a]; tmc TMC.THIGH [VInt b]] |})) /\
  (select_mode hd (this w) = TRINAMIC_RUN_MODE_COOLSTEP hd ->
   set_mode hd g w =
     (Ok tt,
      {| this := with_mode (TRINAMIC_RUN_MODE_COOLSTEP hd) (this w);
         out := out w ++ coolstep_baseline ++
                [tmc TMC.TCOOLTHRS [VInt (NORMAL_TCOOLTHRS hd)];
                 tmc TMC.THIGH [VInt (NORMAL_THIGH hd)]] |})).
Proof.
  split.
  - intros a b Hm Ha Hb. rewrite (set_mode_run hd g w c Hdrv). cbv zeta.
    rewrite Hm, Ha, Hb.
    destruct (Z.eqb_spec (TRINAMIC_RUN_MODE_STALLGUARD hd)
                         (TRINAMIC_RUN_MODE_STEALTHCHOP hd)); [congruence|].
    destruct (Z.eqb_spec (TRINAMIC_RUN_MODE_STALLGUARD hd)
                         (TRINAMIC_RUN_MODE_COOLSTEP hd)); [congruence|].
    reflexivity.
  - intros Hm. rewrite (set_mode_run hd g w c Hdrv). cbv zeta. rewrite Hm.
    destruct (Z.eqb_spec (TRINAMIC_RUN_MODE_COOLSTEP hd)
                         (TRINAMIC_RUN_MODE_STEALTHCHOP hd)); [congruence|].
    rewrite Z.eqb_refl. reflexivity.
Qed.

(** A sample object in the middle of a stallguard homing cycle. *)
Lemma set_mode_thresholds_witness :
  let w := {| this := with_is_homing true (this (snd (sample_ready 2130)));
              out := [] |} in
  set_mode sample_header (sample_globals 16) w =
    (Ok tt,
     {| this := with_mode 2 (this w);
        out := coolstep_baseline ++
               [tmc TMC.TCOOLTHRS [VInt 1406]; tmc TMC.THIGH [VInt 562]] |}).
Proof.
  intros w.
  refine (proj1 (set_mode_thresholds sample_header (sample_globals 16) w
                   TMC.TMC2130Stepper eq_refl _ _ _) 1406 562 eq_refl _ _);
    vm_compute; congruence.
Defined.

(** ** Enable / disable *)

Lemma regs_of_app (tr es : list event) :
  regs_of (tr ++ es) = fold_left write es (regs_of tr).
Proof. unfold regs_of. apply fold_left_app. Qed.




(** The object after [set_mode], on every path. *)
Lemma set_mode_object (hd : Header) (g : Globals) (w : world) :
  this (snd (set_mode hd g w)) = with_mode (select_mode hd (this w)) (this w).
Proof.
  destruct (tmcstepper (this w)) as [c|] eqn:Hd.
  - rewrite (set_mode_run hd g w c Hd). cbv zeta.
    destruct (_ =? TRINAMIC_RUN_MODE_STEALTHCHOP hd);
      [|destruct (_ =? TRINAMIC_RUN_MODE_COOLSTEP hd);
        [|destruct (calc_tstep hd g _ _ (IEEE.f32_of_f64 (IEEE.f64_of_Z 150)));
          [destruct (calc_tstep hd g _ _ (IEEE.f32_of_f64 (IEEE.f64_of_Z 60)))|]]];
      reflexivity.
  - unfold set_mode, bind at 1, get, bind at 1, modify.
    set (m := select_mode hd (this w)).
    assert (Hn : tmcstepper (this {| this := with_mode m (this w); out := out w |})
                 = None) by exact Hd.
    destruct (m =? TRINAMIC_RUN_MODE_STEALTHCHOP hd);
      unfold bind at 1; rewrite (call_none _ _ _ Hn); reflexivity.
Qed.





(** ** Homing mode *)

Lemma bind_ok_inv {A B} (c : M A) (k : A -> M B) (w w' : world) (b : B) :
  bind c k w = (Ok b, w') ->
  exists a w1, c w = (Ok a, w1) /\ k a w1 = (Ok b, w').
Proof.
  unfold bind. destruct (c w) as [[a|f] w1]; [|discriminate].
  intros H. now exists a, w1.
Qed.

Lemma init_clears_is_homing (hd : Header) (g : Globals) (w w' : world) :
  init hd g w = (Ok tt, w') -> _is_homing (this w') = false.
Proof.
  unfold init. intros H.
  do 5 (apply bind_ok_inv in H; destruct H as (? & ? & _ & H)).
  apply bind_ok_inv in H. destruct H as (? & w1 & H1 & H).
  unfold modify in H1, H. injection H1 as _ <-. injection H as <-.
  reflexivity.
Qed.

(** Whatever its argument, [set_homing_mode] on an object that is not
    homing stores the default run mode: the argument goes to
    [_homing_mode], and [_is_homing] is left as it was. *)
Lemma set_homing_mode_not_homing (hd : Header) (g : Globals) (w : world) (b : bool) :
  _is_homing (this w) = false ->
  _mode (this (snd (set_homing_mode hd g b w))) = TRINAMIC_RUN_MODE hd /\
  _is_homing (this (snd (set_homing_mode hd g b w))) = false /\
  _homing_mode (this (snd (set_homing_mode hd g b w))) = Z.b2z b.
Proof.
  intros Hh.
  set (w0 := {| this := with_homing_mode (Z.b2z b) (this w); out := out w |}).
  change (set_homing_mode hd g b w) with (set_mode hd g w0).
  destruct (tmcstepper (this w0)) as [c|] eqn:Hd.
  - rewrite (set_mode_run hd g w0 c Hd). cbv zeta.
    assert (Hs : select_mode hd (this w0) = TRINAMIC_RUN_MODE hd)
      by (unfold select_mode, w0; cbn; now rewrite Hh).
    rewrite Hs.
    destruct (_ =? TRINAMIC_RUN_MODE_STEALTHCHOP hd);
      [|destruct (_ =? TRINAMIC_RUN_MODE_COOLSTEP hd);
        [|destruct (calc_tstep hd g _ _ (IEEE.f32_of_f64 (IEEE.f64_of_Z 150)));
          [destruct (calc_tstep hd g _ _ (IEEE.f32_of_f64 (IEEE.f64_of_Z 60)))|]]];
      cbn; auto.
  - unfold set_mode. run. unfold select_mode. cbn. rewrite Hh. cbn.
    unfold call. cbn. cbn in Hd.
    destruct (_ =? TRINAMIC_RUN_MODE_STEALTHCHOP hd); cbn; rewrite Hd; cbn; auto.
Qed.

(** C1 (the code departs from the claim): on the initialised sample
    object, whose homing strategy member holds the stallguard strategy,
    [set_homing_mode(true)] returns normally and leaves [_mode] at the
    default run mode, not at the stallguard mode. *)
Theorem set_homing_mode_true_stays_in_run_mode :
  let hd := sample_header in
  let w := snd (sample_ready 2130) in
  fst (sample_ready 2130) = Ok tt /\
  _homing_mode (this w) = TRINAMIC_HOMING_STALLGUARD hd /\
  fst (set_homing_mode hd (sample_globals 16) true w) = Ok tt /\
  _mode (this (snd (set_homing_mode hd (sample_globals 16) true w)))
    = TRINAMIC_RUN_MODE hd /\
  _mode (this (snd (set_homing_mode hd (sample_globals 16) true w)))
    <> TRINAMIC_RUN_MODE_STALLGUARD hd.
Proof. vm_compute. repeat split; congruence. Qed.

(** ** Construction with an unsupported part number *)

(** C2 as stated fails: after construction with part number 1234,
    [init()] does not return normally. *)
Lemma unsupported_init_not_graceful :
  fst (sample_new 1234) = Ok tt /\
  ~ graceful (init sample_header (sample_globals 16)) (snd (sample_new 1234)).
Proof.
  split; [reflexivity|].
  intros (a & w' & H & _). vm_compute in H. discriminate.
Qed.

Lemma no_driver_set_mode (hd : Header) (g : Globals) (w : world) :
  tmcstepper (this w) = None ->
  fst (set_mode hd g w) = Fault null_driver /\
  out (snd (set_mode hd g w)) = out w.
Proof.
  intros H. unfold set_mode. run. unfold call. cbn.
  destruct (_ =? TRINAMIC_RUN_MODE_STEALTHCHOP hd); cbn; rewrite H; cbn; auto.
Qed.

(** C2, amended: construction with a part number other than 2130 and 5160
    emits the "unsupported p/n" message and nothing else, and leaves no
    driver object; on such an object [init], [test], [read_settings],
    [set_mode], [set_homing_mode] and [debug_message] each stop with the
    missing-driver fault at their first driver call, with no driver call
    made. *)
Theorem unsupported_part_number (hd : Header) (g : Globals) (raw : TrinamicDriver)
    (axis step dir dis cs pn : Z) (r_sense : spec_float) (spi : Z) (w0 : world)
    (Hax : MAX_AXES hd <> 0)
    (H2130 : pn <> 2130) (H5160 : pn <> 5160) :
  let r := new_TrinamicDriver hd g raw axis step dir dis cs pn r_sense spi w0 in
  fst r = Ok tt /\
  out (snd r) = out w0 ++ [grbl_msg_sendf "Trinamic unsupported p/n:%d" [VInt pn]] /\
  tmcstepper (this (snd r)) = None /\
  forall w, tmcstepper (this w) = None ->
    (fst (init hd g w) = Fault null_driver /\ tmc_calls (out (snd (init hd g w))) = tmc_calls (out w)) /\
    (fst (test hd g w) = Fault null_driver /\ out (snd (test hd g w)) = out w) /\
    (fst (read_settings g w) = Fault null_driver /\ out (snd (read_settings g w)) = out w) /\
    (fst (set_mode hd g w) = Fault null_driver /\ out (snd (set_mode hd g w)) = out w) /\
    (forall b, fst (set_homing_mode hd g b w) = Fault null_driver /\
               out (snd (set_homing_mode hd g b w)) = out w) /\
    (fst (debug_message g w) = Fault null_driver /\ out (snd (debug_message g w)) = out w).
Proof.
  intros r.
  assert (Hr : r = (Ok tt,
                    {| this := assigned hd raw axis step dir dis cs pn r_sense spi None;
                       out := out w0 ++ [grbl_msg_sendf "Trinamic unsupported p/n:%d"
                                                        [VInt pn]] |})).
  { unfold r, new_TrinamicDriver.
    destruct (Z.eqb_spec (MAX_AXES hd) 0); [contradiction|].
    destruct (Z.eqb_spec pn 2130); [contradiction|].
    destruct (Z.eqb_spec pn 5160); [contradiction|].
    reflexivity. }
  rewrite Hr. cbn [fst snd this out].
  do 3 (split; [reflexivity|]).
  intros w H.
  assert (Hi : init hd g w = (Fault null_driver, say w SPI_begin)).
  { unfold init. run. unfold call. cbn. now rewrite H. }
  assert (Hh : forall b, tmcstepper (this {| this := with_homing_mode (Z.b2z b) (this w);
                                             out := out w |}) = None) by (intros b; exact H).
  repeat split.
  - now rewrite Hi.
  - rewrite Hi. cbn [snd say out]. unfold tmc_calls. rewrite filter_app. cbn.
    now rewrite app_nil_r.
  - unfold test. run. now rewrite (query_none g _ w H).
  - unfold test. run. now rewrite (query_none g _ w H).
  - unfold read_settings. run. now rewrite (call_none _ _ w H).
  - unfold read_settings. run. now rewrite (call_none _ _ w H).
  - now apply no_driver_set_mode.
  - now apply no_driver_set_mode.
  - exact (proj1 (no_driver_set_mode hd g _ (Hh b))).
  - exact (proj2 (no_driver_set_mode hd g _ (Hh b))).
  - unfold debug_message. run. now rewrite (query_none g _ w H).
  - unfold debug_message. run. now rewrite (query_none g _ w H).
Qed.

Lemma unsupported_part_number_witness :
  out (snd (sample_new 1234))
    = [grbl_msg_sendf "Trinamic unsupported p/n:%d" [VInt 1234]] /\
  fst (init sample_header (sample_globals 16) (snd (sample_new 1234)))
    = Fault null_driver.
Proof.
  destruct (unsupported_part_number sample_header (sample_globals 16) sample_raw
              0 12 14 13 17 1234 (IEEE.f32_of_Z 0) 1
              {| this := sample_raw; out := [] |}
              ltac:(discriminate) ltac:(discriminate) ltac:(discriminate))
    as (_ & Hout & Hnone & Hops).
  split; [exact Hout|].
  exact (proj1 (proj1 (Hops _ Hnone))).
Defined.

(** ** Threshold calculation *)

(** C3: speed 600, percent 150, 80 steps per unit, 16 microsteps and a
    12 MHz clock give 1406. *)
Theorem calc_tstep_example :
  calc_tstep sample_header (sample_globals 16) 0
             (IEEE.f32_of_Z 600) (IEEE.f32_of_f64 (IEEE.f64_of_Z 150))
  = Ok 1406.
Proof. vm_compute. reflexivity. Qed.
(** ** Rounding to nearest: correctness and monotonicity *)

Lemma pow2_pos (e : Z) : (0 < pow2 e)%R.
Proof. apply powerRZ_lt. lra. Qed.

Lemma pow2_add (a b : Z) : pow2 (a + b) = (pow2 a * pow2 b)%R.
Proof. apply powerRZ_add. lra. Qed.

Lemma pow2_0 : pow2 0 = 1%R.
Proof. reflexivity. Qed.

Lemma pow2_1 : pow2 1 = 2%R.
Proof. exact (powerRZ_1 2). Qed.

Lemma pow2_opp (a : Z) : pow2 (- a) = (/ pow2 a)%R.
Proof. apply powerRZ_neg'. Qed.

Lemma pow2_sub (a b : Z) : pow2 (a - b) = (pow2 a / pow2 b)%R.
Proof. unfold Z.sub. rewrite pow2_add, pow2_opp. reflexivity. Qed.

Lemma pow2_IZR (n : Z) : 0 <= n -> pow2 n = IZR (2 ^ n).
Proof.
  intros Hn. unfold pow2.
  rewrite <- (Z2Nat.id n Hn) at 1 2.
  rewrite <- pow_powerRZ, pow_IZR. reflexivity.
Qed.

Lemma pow2_ge_1 (n : Z) : 0 <= n -> (1 <= pow2 n)%R.
Proof.
  intros Hn. rewrite (pow2_IZR n Hn). apply IZR_le.
  assert (0 < 2 ^ n) by (apply Z.pow_pos_nonneg; lia). lia.
Qed.

Lemma pow2_le (a b : Z) : a <= b -> (pow2 a <= pow2 b)%R.
Proof.
  intros H. replace b with (a + (b - a)) by lia. rewrite pow2_add.
  pose proof (pow2_pos a). pose proof (pow2_ge_1 (b - a) ltac:(lia)). nra.
Qed.


Lemma pow2_lt_inv (a b : Z) : (pow2 a < pow2 b)%R -> a < b.
Proof.
  intros H. destruct (Z_lt_le_dec a b) as [|Hle]; [assumption|].
  apply pow2_le in Hle. lra.
Qed.

Lemma pow2_succ (a : Z) : pow2 (a + 1) = (2 * pow2 a)%R.
Proof. rewrite pow2_add, pow2_1. lra. Qed.

(* integers strictly below a bound *)
Lemma IZR_lt_succ_le (n m : Z) : (IZR n < IZR m + 1)%R -> n <= m.
Proof. intros H. rewrite <- plus_IZR in H. apply lt_IZR in H. lia. Qed.

(* digits *)
Lemma digits2_pos_size (p : positive) : digits2_pos p = Pos.size p.
Proof. induction p; cbn; congruence. Qed.

Lemma Zdigits2_bounds (m : Z) :
  0 < m -> 2 ^ (Zdigits2 m - 1) <= m < 2 ^ Zdigits2 m /\ 0 < Zdigits2 m.
Proof.
  destruct m as [|p|p]; try lia. intros _. cbn [Zdigits2].
  rewrite digits2_pos_size.
  pose proof (Pos.size_gt p) as Hgt. pose proof (Pos.size_le p) as Hle.
  assert (Hgt' : Zpos p < 2 ^ Zpos (Pos.size p)).
  { rewrite <- Pos2Z.inj_pow. lia. }
  assert (Hle' : 2 ^ Zpos (Pos.size p) <= 2 * Zpos p).
  { rewrite <- Pos2Z.inj_pow. lia. }
  split; [|lia]. split; [|assumption].
  replace (Zpos (Pos.size p)) with (Zpos (Pos.size p) - 1 + 1) in Hle' by lia.
  rewrite Z.pow_add_r in Hle' by lia. lia.
Qed.

Lemma Zdigits2_nonneg (m : Z) : 0 <= Zdigits2 m.
Proof. destruct m; cbn; lia. Qed.

Lemma Zdigits2_unique (m d : Z) :
  2 ^ (d - 1) <= m < 2 ^ d -> 0 < d -> Zdigits2 m = d.
Proof.
  intros [Hl Hu] Hd.
  assert (Hm : 0 < m).
  { assert (0 < 2 ^ (d - 1)) by (apply Z.pow_pos_nonneg; lia). lia. }
  destruct (Zdigits2_bounds m Hm) as [[Hl' Hu'] Hd'].
  destruct (Z.lt_trichotomy (Zdigits2 m) d) as [H|[H|H]]; [|assumption|].
  - assert (2 ^ Zdigits2 m <= 2 ^ (d - 1)) by (apply Z.pow_le_mono_r; lia). lia.
  - assert (2 ^ d <= 2 ^ (Zdigits2 m - 1)) by (apply Z.pow_le_mono_r; lia). lia.
Qed.

Lemma loc_of_shr_record_of_loc (m : Z) (l : location) :
  loc_of_shr_record (shr_record_of_loc m l) = l.
Proof. destruct l as [|[| |]]; reflexivity. Qed.

Lemma shr_m_of_loc (m : Z) (l : location) : shr_m (shr_record_of_loc m l) = m.
Proof. destruct l as [|[| |]]; reflexivity. Qed.

Lemma IZR_xO (p : positive) : IZR (Zpos p~0) = (2 * IZR (Zpos p))%R.
Proof. rewrite <- mult_IZR. reflexivity. Qed.

Lemma IZR_xI (p : positive) : IZR (Zpos p~1) = (2 * IZR (Zpos p) + 1)%R.
Proof. rewrite <- mult_IZR, <- plus_IZR. reflexivity. Qed.

Lemma shr_1_located (y : R) (mrs : shr_record) :
  0 <= shr_m mrs ->
  located y (shr_m mrs) (loc_of_shr_record mrs) ->
  located (y / 2) (shr_m (shr_1 mrs)) (loc_of_shr_record (shr_1 mrs)) /\
  0 <= shr_m (shr_1 mrs).
Proof.
  destruct mrs as [m r s]. cbn [shr_m]. intros Hm H.
  destruct m as [|[p|p|]|p]; try lia;
    try pose proof (IZR_xO p); try pose proof (IZR_xI p);
    destruct r, s;
    cbn [shr_1 shr_m loc_of_shr_record located orb] in *;
    (split; [lra|lia]).
Qed.

Lemma iter_pos_shr_1_located (p : positive) :
  forall (y : R) (mrs : shr_record),
  0 <= shr_m mrs ->
  located y (shr_m mrs) (loc_of_shr_record mrs) ->
  located (y / pow2 (Zpos p)) (shr_m (iter_pos shr_1 p mrs))
          (loc_of_shr_record (iter_pos shr_1 p mrs)) /\
  0 <= shr_m (iter_pos shr_1 p mrs).
Proof.
  induction p as [p IH|p IH|]; intros y mrs Hm H; cbn [iter_pos].
  - destruct (shr_1_located y mrs Hm H) as [H1 Hm1].
    destruct (IH _ _ Hm1 H1) as [H2 Hm2].
    destruct (IH _ _ Hm2 H2) as [H3 Hm3].
    split; [|assumption].
    replace (y / pow2 (Zpos p~1))%R with (y / 2 / pow2 (Zpos p) / pow2 (Zpos p))%R;
      [assumption|].
    replace (Zpos p~1) with (1 + Zpos p + Zpos p) by lia.
    rewrite !pow2_add, pow2_1. pose proof (pow2_pos (Zpos p)). field. lra.
  - destruct (IH _ _ Hm H) as [H2 Hm2].
    destruct (IH _ _ Hm2 H2) as [H3 Hm3].
    split; [|assumption].
    replace (y / pow2 (Zpos p~0))%R with (y / pow2 (Zpos p) / pow2 (Zpos p))%R;
      [assumption|].
    replace (Zpos p~0) with (Zpos p + Zpos p) by lia.
    rewrite !pow2_add. pose proof (pow2_pos (Zpos p)). field. lra.
  - rewrite pow2_1. now apply shr_1_located.
Qed.

(** Shifting right by [n >= 0] places keeps the location of the value. *)
Lemma shr_located (x : R) (m e n : Z) (l : location) :
  0 <= m -> 0 <= n ->
  located (x / pow2 e) m l ->
  let '(mrs, e') := shr (shr_record_of_loc m l) e n in
  e' = e + n /\ 0 <= shr_m mrs /\
  located (x / pow2 e') (shr_m mrs) (loc_of_shr_record mrs).
Proof.
  intros Hm Hn H. unfold shr.
  destruct n as [|p|p]; try lia.
  - rewrite Z.add_0_r, shr_m_of_loc, loc_of_shr_record_of_loc. auto.
  - destruct (iter_pos_shr_1_located p (x / pow2 e) (shr_record_of_loc m l))
      as [H1 Hm1].
    + now rewrite shr_m_of_loc.
    + now rewrite shr_m_of_loc, loc_of_shr_record_of_loc.
    + split; [reflexivity|]. split; [assumption|].
      replace (x / pow2 (e + Zpos p))%R with (x / pow2 e / pow2 (Zpos p))%R;
        [assumption|].
      rewrite pow2_add. pose proof (pow2_pos e). pose proof (pow2_pos (Zpos p)).
      field. lra.
Qed.

Lemma round_nearest_even_spec (y : R) (m : Z) (l : location) :
  located y m l -> nearest_even y (round_nearest_even m l).
Proof.
  unfold nearest_even, located, round_nearest_even.
  destruct l as [|[| |]]; intros H.
  - subst y. split; [lra|]. intros [H|H]; lra.
  - destruct (Z.even m) eqn:He.
    + subst y. split; [lra|]. intros _. assumption.
    + subst y. rewrite plus_IZR. split; [lra|]. intros _.
      rewrite Z.even_add, He. reflexivity.
  - split; [lra|]. intros [H'|H']; lra.
  - rewrite plus_IZR. split; [lra|]. intros [H'|H']; lra.
Qed.

Lemma nearest_even_mono (y y' : R) (n n' : Z) :
  (y <= y')%R -> nearest_even y n -> nearest_even y' n' -> n <= n'.
Proof.
  intros Hy [Hn En] [Hn' En'].
  destruct (Z_le_gt_dec n n') as [|Hgt]; [assumption|exfalso].
  assert (H1 : (IZR n' + 1 <= IZR n)%R).
  { rewrite <- plus_IZR. apply IZR_le. lia. }
  assert (Hy1 : y = (IZR n - / 2)%R) by lra.
  assert (Hy2 : y' = (IZR n' + / 2)%R) by lra.
  assert (Hnn : IZR n = (IZR n' + 1)%R) by lra.
  rewrite <- plus_IZR in Hnn. apply eq_IZR in Hnn.
  specialize (En (or_introl Hy1)). specialize (En' (or_intror Hy2)).
  subst n. rewrite Z.even_add, En' in En. discriminate.
Qed.

Lemma nearest_even_ge (y : R) (n k : Z) :
  (IZR k <= y)%R -> nearest_even y n -> k <= n.
Proof.
  intros Hk [Hn _].
  assert (H : (IZR k < IZR n + 1)%R) by lra.
  now apply IZR_lt_succ_le.
Qed.

Lemma nearest_even_le (y : R) (n k : Z) :
  (y <= IZR k)%R -> nearest_even y n -> n <= k.
Proof.
  intros Hk [Hn _].
  assert (H : (IZR n < IZR k + 1)%R) by lra.
  now apply IZR_lt_succ_le.
Qed.

Lemma located_bounds (y : R) (m : Z) (l : location) :
  located y m l -> (IZR m <= y < IZR m + 1)%R.
Proof. destruct l as [|[| |]]; cbn; lra. Qed.

Lemma shr_m_shr_1 (mrs : shr_record) :
  0 <= shr_m mrs -> shr_m (shr_1 mrs) = Z.div2 (shr_m mrs).
Proof. destruct mrs as [[|[p|p|]|p] r s]; cbn; intros H; try reflexivity; lia. Qed.

Lemma scale_le (x : R) (a b : Z) :
  (pow2 (a + b) <= x)%R -> (pow2 a <= x / pow2 b)%R.
Proof.
  intros H. rewrite pow2_add in H. pose proof (pow2_pos b) as Hb.
  apply Rmult_le_reg_r with (pow2 b); [assumption|].
  replace (x / pow2 b * pow2 b)%R with x by (field; lra). assumption.
Qed.

Lemma scale_lt (x : R) (a b : Z) :
  (x < pow2 (a + b))%R -> (x / pow2 b < pow2 a)%R.
Proof.
  intros H. rewrite pow2_add in H. pose proof (pow2_pos b) as Hb.
  apply Rmult_lt_reg_r with (pow2 b); [assumption|].
  replace (x / pow2 b * pow2 b)%R with x by (field; lra). assumption.
Qed.

Lemma unscale_le (x : R) (a b : Z) :
  (pow2 a <= x / pow2 b)%R -> (pow2 (a + b) <= x)%R.
Proof.
  intros H. rewrite pow2_add. pose proof (pow2_pos b) as Hb.
  replace x with (x / pow2 b * pow2 b)%R by (field; lra).
  apply Rmult_le_compat_r; lra.
Qed.

Lemma unscale_lt (x : R) (a b : Z) :
  (x / pow2 b < pow2 a)%R -> (x < pow2 (a + b))%R.
Proof.
  intros H. rewrite pow2_add. pose proof (pow2_pos b) as Hb.
  replace x with (x / pow2 b * pow2 b)%R by (field; lra).
  apply Rmult_lt_compat_r; lra.
Qed.

Section RoundingCorrect.
Variables prec emax : Z.
Hypothesis Hprec : 0 < prec.

Local Abbreviation emin := (emin prec emax).
Local Abbreviation fexp := (fexp prec emax).

Lemma exp_ok_of_located (x : R) (m e : Z) (l : location) :
  (0 < x)%R -> 0 <= m ->
  located (x / pow2 e) m l ->
  e <= fexp (Zdigits2 m + e) ->
  exp_ok prec emax x (fexp (Zdigits2 m + e)).
Proof.
  intros Hx Hm Hloc He. unfold exp_ok.
  pose proof (located_bounds _ _ _ Hloc) as [Hlo Hhi].
  unfold SpecFloat.fexp in *.
  destruct (Z.eq_dec m 0) as [->|Hm0].
  - cbn [Zdigits2] in *. rewrite Z.add_0_l in *.
    left. split; [lia|].
    assert (x < pow2 e)%R.
    { replace e with (0 + e) by lia. apply unscale_lt. rewrite pow2_0.
      cbn in Hhi. lra. }
    assert (pow2 e <= pow2 (emin + prec))%R by (apply pow2_le; lia).
    lra.
  - destruct (Zdigits2_bounds m ltac:(lia)) as [[Dl Du] Dp].
    set (d := Zdigits2 m) in *.
    assert (Hl : (pow2 (d - 1) <= IZR m)%R).
    { rewrite pow2_IZR by lia. now apply IZR_le. }
    assert (Hu : (IZR m + 1 <= pow2 d)%R).
    { rewrite pow2_IZR by lia. rewrite <- plus_IZR. apply IZR_le. lia. }
    assert (Hxl : (pow2 (d - 1 + e) <= x)%R) by (apply unscale_le; lra).
    assert (Hxu : (x < pow2 (d + e))%R) by (apply unscale_lt; lra).
    destruct (Z_le_gt_dec (d + e - prec) emin) as [Hle|Hgt].
    + left. split; [lia|].
      assert (pow2 (d + e) <= pow2 (emin + prec))%R by (apply pow2_le; lia).
      lra.
    + right. split; [lia|].
      replace (Z.max (d + e - prec) emin) with (d + e - prec) by lia.
      replace (d + e - prec + prec - 1) with (d - 1 + e) by lia.
      replace (d + e - prec + prec) with (d + e) by lia.
      split; assumption.
Qed.

Lemma exp_ok_ge_emin (x : R) (E : Z) : exp_ok prec emax x E -> emin <= E.
Proof. intros [[-> _]|[H _]]; lia. Qed.

Lemma exp_ok_upper (x : R) (E : Z) :
  exp_ok prec emax x E -> (x / pow2 E < pow2 prec)%R.
Proof.
  intros [[-> H]|[_ [_ H]]]; apply scale_lt; now rewrite Z.add_comm.
Qed.

Lemma exp_ok_lower (x : R) (E : Z) :
  exp_ok prec emax x E -> emin < E -> (pow2 (prec - 1) <= x / pow2 E)%R.
Proof.
  intros [[-> H]|[_ [H _]]] HE; [lia|].
  apply scale_le. now replace (prec - 1 + E) with (E + prec - 1) by lia.
Qed.

(** The significand rounded at the right exponent stays within
    [0, 2^prec], and is at least [2^(prec-1)] above the subnormal
    exponent. *)
Lemma rounded_significand_bounds (x : R) (E n : Z) :
  (0 < x)%R -> exp_ok prec emax x E -> nearest_even (x / pow2 E) n ->
  0 <= n <= 2 ^ prec /\ (emin < E -> 2 ^ (prec - 1) <= n).
Proof.
  intros Hx HE Hn.
  pose proof (pow2_pos E) as HpE.
  assert (Hy : (0 < x / pow2 E)%R) by (apply Rdiv_lt_0_compat; assumption).
  split; [split|].
  - apply (nearest_even_ge (x / pow2 E)); [cbn; lra|assumption].
  - apply (nearest_even_le (x / pow2 E)); [|assumption].
    pose proof (exp_ok_upper x E HE) as H.
    rewrite (pow2_IZR prec) in H by lia. lra.
  - intros Hgt. apply (nearest_even_ge (x / pow2 E)); [|assumption].
    pose proof (exp_ok_lower x E HE Hgt) as H.
    rewrite (pow2_IZR (prec - 1)) in H by lia. assumption.
Qed.

(** The second alignment of [binary_round_aux] on an exactly located
    significand [0 <= n <= 2^prec] at exponent [E >= emin] produces
    [pack n E]. *)
Lemma renormalise_pack (n E : Z) :
  0 <= n <= 2 ^ prec -> emin <= E ->
  (let '(mrs, e) := shr_fexp prec emax n E loc_Exact in
   match shr_m mrs with
   | Z0 => S754_zero false
   | Zpos m => if e <=? emax - prec then S754_finite false m e
               else S754_infinity false
   | Zneg _ => S754_nan
   end) = pack prec emax n E.
Proof.
  intros [Hn0 Hn1] HE. unfold shr_fexp, pack, SpecFloat.fexp.
  destruct (Z.eqb_spec n 0) as [->|Hnz].
  - cbn [Zdigits2 shr_record_of_loc]. rewrite Z.add_0_l.
    unfold shr. destruct (Z.max (E - prec) emin - E) eqn:Hs; try lia;
      reflexivity.
  - destruct (Z.eqb_spec n (2 ^ prec)) as [->|Hne].
    + assert (Hd : Zdigits2 (2 ^ prec) = prec + 1).
      { apply Zdigits2_unique; [|lia].
        replace (prec + 1 - 1) with prec by lia. split; [lia|].
        apply Z.pow_lt_mono_r; lia. }
      rewrite Hd.
      replace (Z.max (prec + 1 + E - prec) emin - E) with 1 by lia.
      cbn [shr iter_pos shr_record_of_loc].
      rewrite shr_m_shr_1 by (cbn; lia). cbn [shr_m].
      rewrite Z.div2_div.
      assert (Hp2 : 2 ^ prec = 2 ^ (prec - 1) * 2).
      { replace prec with (prec - 1 + 1) at 1 by lia.
        rewrite Z.pow_add_r by lia. reflexivity. }
      rewrite Hp2 at 1. rewrite Z.div_mul by lia.
      assert (0 < 2 ^ (prec - 1)) by (apply Z.pow_pos_nonneg; lia).
      destruct (2 ^ (prec - 1)) as [|q|q] eqn:Hq; try lia.
      reflexivity.
    + destruct (Zdigits2_bounds n ltac:(lia)) as [[Dl Du] Dp].
      assert (Hd : Zdigits2 n <= prec).
      { destruct (Z_le_gt_dec (Zdigits2 n) prec) as [|Hgt]; [assumption|].
        assert (2 ^ prec <= 2 ^ (Zdigits2 n - 1))
          by (apply Z.pow_le_mono_r; lia).
        lia. }
      unfold shr.
      destruct (Z.max (Zdigits2 n + E - prec) emin - E) eqn:Hs; try lia;
        cbn [shr_record_of_loc shr_m];
        destruct n as [|q|q]; try lia; reflexivity.
Qed.

(** [binary_round_aux] rounds the located value to nearest, ties to
    even. *)
Theorem binary_round_aux_rounds (x : R) (m e : Z) (l : location) :
  (0 < x)%R -> 0 <= m ->
  located (x / pow2 e) m l ->
  e <= fexp (Zdigits2 m + e) ->
  rounds_to prec emax x (binary_round_aux prec emax false m e l).
Proof.
  intros Hx Hm Hloc He.
  pose proof (exp_ok_of_located x m e l Hx Hm Hloc He) as HE.
  set (E := fexp (Zdigits2 m + e)) in *.
  unfold binary_round_aux, shr_fexp at 1. fold E.
  pose proof (shr_located x m e (E - e) l Hm ltac:(lia) Hloc) as Hs.
  destruct (shr (shr_record_of_loc m l) e (E - e)) as [mrs1 e1].
  destruct Hs as (He1 & Hm1 & Hl1).
  replace e1 with E in * by lia.
  pose proof (round_nearest_even_spec _ _ _ Hl1) as Hn.
  set (n := round_nearest_even (shr_m mrs1) (loc_of_shr_record mrs1)) in *.
  destruct (rounded_significand_bounds x E n Hx HE Hn) as [Hb _].
  exists E, n. split; [assumption|]. split; [assumption|].
  apply (renormalise_pack n E Hb). now apply (exp_ok_ge_emin x).
Qed.
End RoundingCorrect.

Lemma SFleb_finite (m m' : positive) (e e' : Z) :
  e <= e' -> (e = e' -> (m <= m')%positive) ->
  SFleb (S754_finite false m e) (S754_finite false m' e') = true.
Proof.
  intros He Hm. unfold SFleb, SFcompare.
  destruct (Z.compare_spec e e') as [Heq|Hlt|Hgt]; try reflexivity; [|lia].
  specialize (Hm Heq). change (Pos.compare_cont Eq m m') with (m ?= m')%positive.
  destruct (Pos.compare_spec m m'); try reflexivity. lia.
Qed.

Lemma SFleb_finite_inv (m m' : positive) (e e' : Z) :
  SFleb (S754_finite false m e) (S754_finite false m' e') = true ->
  e < e' \/ (e = e' /\ (m <= m')%positive).
Proof.
  unfold SFleb, SFcompare.
  destruct (Z.compare_spec e e') as [Heq|Hlt|Hgt]; try discriminate; [|lia].
  change (Pos.compare_cont Eq m m') with (m ?= m')%positive.
  destruct (Pos.compare_spec m m'); try discriminate; intros _; lia.
Qed.

Lemma posfin_nonneg (prec emax : Z) (f : spec_float) :
  posfin prec emax f = true -> nonneg prec emax f = true.
Proof. destruct f; cbn; congruence. Qed.

Lemma SFleb_zero_l (prec emax : Z) (f : spec_float) :
  nonneg prec emax f = true -> SFleb (S754_zero false) f = true.
Proof. destruct f as [[|]|[|]| |[|] m e]; cbn; congruence. Qed.

Lemma SFleb_inf_r (prec emax : Z) (f : spec_float) :
  nonneg prec emax f = true -> SFleb f (S754_infinity false) = true.
Proof. destruct f as [[|]|[|]| |[|] m e]; cbn; congruence. Qed.

Lemma SFleb_refl (prec emax : Z) (f : spec_float) :
  nonneg prec emax f = true -> SFleb f f = true.
Proof.
  destruct f as [[|]|[|]| |[|] m e]; cbn; try congruence. intros _.
  apply SFleb_finite; lia.
Qed.

Section RoundingOrder.
Variables prec emax : Z.
Hypothesis Hprec : 0 < prec.

Local Abbreviation emin := (emin prec emax).
Local Abbreviation fexp := (fexp prec emax).

Lemma exp_ok_mono (x x' : R) (E E' : Z) :
  (x <= x')%R -> exp_ok prec emax x E -> exp_ok prec emax x' E' -> E <= E'.
Proof.
  intros Hx [[-> H]|[H1 [H2 H3]]] [[-> H']|[H1' [H2' H3']]]; try lia.
  - assert (Hp : (pow2 (E + prec - 1) < pow2 (emin + prec))%R) by lra.
    apply pow2_lt_inv in Hp. lia.
  - assert (Hp : (pow2 (E + prec - 1) < pow2 (E' + prec))%R) by lra.
    apply pow2_lt_inv in Hp. lia.
Qed.

Lemma canonical_small (n E : Z) :
  0 < n < 2 ^ prec -> emin <= E -> (emin < E -> 2 ^ (prec - 1) <= n) ->
  bounded prec emax (Z.to_pos n) E = (E <=? emax - prec).
Proof.
  intros [Hn0 Hn1] HE Hnorm. unfold bounded, canonical_mantissa.
  assert (Hd : Zpos (digits2_pos (Z.to_pos n)) = Zdigits2 n).
  { destruct n; try lia. reflexivity. }
  rewrite Hd.
  destruct (Zdigits2_bounds n Hn0) as [[Dl Du] Dp].
  assert (Hdp : Zdigits2 n <= prec).
  { destruct (Z_le_gt_dec (Zdigits2 n) prec) as [|Hgt]; [assumption|].
    assert (2 ^ prec <= 2 ^ (Zdigits2 n - 1)) by (apply Z.pow_le_mono_r; lia).
    lia. }
  assert (Hf : fexp (Zdigits2 n + E) = E).
  { unfold SpecFloat.fexp.
    destruct (Z.eq_dec E emin) as [->|Hne]; [lia|].
    assert (prec <= Zdigits2 n).
    { destruct (Z_le_gt_dec prec (Zdigits2 n)) as [|Hgt]; [assumption|].
      assert (2 ^ Zdigits2 n <= 2 ^ (prec - 1)) by (apply Z.pow_le_mono_r; lia).
      specialize (Hnorm ltac:(lia)). lia. }
    lia. }
  rewrite Hf, Z.eqb_refl. reflexivity.
Qed.

Lemma pow2_prec_pos : 0 < 2 ^ (prec - 1) < 2 ^ prec.
Proof.
  split; [apply Z.pow_pos_nonneg; lia|]. apply Z.pow_lt_mono_r; lia.
Qed.

(** The shape of [pack] on a significand within its bounds. *)
Lemma pack_cases (n E : Z) :
  0 <= n <= 2 ^ prec -> emin <= E -> (emin < E -> 2 ^ (prec - 1) <= n) ->
  (n = 0 /\ pack prec emax n E = S754_zero false) \/
  (exists n' E',
     0 < n' < 2 ^ prec /\ emin <= E' /\ (emin < E' -> 2 ^ (prec - 1) <= n') /\
     (E <= E' <= E + 1) /\ (E' = E -> n' = n) /\ (E' = E + 1 -> n = 2 ^ prec /\ n' = 2 ^ (prec - 1)) /\
     0 < n /\
     pack prec emax n E =
       if E' <=? emax - prec then S754_finite false (Z.to_pos n') E'
       else S754_infinity false).
Proof.
  intros Hn HE Hnorm. unfold pack. pose proof pow2_prec_pos as Hp.
  destruct (Z.eqb_spec n 0) as [->|Hnz]; [left; auto|right].
  destruct (Z.eqb_spec n (2 ^ prec)) as [->|Hne].
  - exists (2 ^ (prec - 1)), (E + 1). repeat split; try lia.
  - exists n, E. repeat split; try lia.
Qed.

Lemma pack_nonneg (n E : Z) :
  0 <= n <= 2 ^ prec -> emin <= E -> (emin < E -> 2 ^ (prec - 1) <= n) ->
  nonneg prec emax (pack prec emax n E) = true.
Proof.
  intros Hn HE Hnorm.
  destruct (pack_cases n E Hn HE Hnorm)
    as [[_ ->]|(n' & E' & Hn' & HE' & Hnorm' & _ & _ & _ & _ & ->)];
    [reflexivity|].
  destruct (E' <=? emax - prec) eqn:Hb; [|reflexivity].
  cbn. rewrite (canonical_small n' E' Hn' HE' Hnorm'). assumption.
Qed.

Lemma pack_mono (n E n' E' : Z) :
  0 <= n <= 2 ^ prec -> emin <= E -> (emin < E -> 2 ^ (prec - 1) <= n) ->
  0 <= n' <= 2 ^ prec -> emin <= E' -> (emin < E' -> 2 ^ (prec - 1) <= n') ->
  E <= E' -> (E = E' -> n <= n') ->
  SFleb (pack prec emax n E) (pack prec emax n' E') = true.
Proof.
  intros Hn HE Hnorm Hn' HE' Hnorm' HEE Hnn.
  pose proof pow2_prec_pos as Hp.
  pose proof (pack_nonneg n' E' Hn' HE' Hnorm') as Hnn'.
  destruct (pack_cases n E Hn HE Hnorm)
    as [[_ ->]|(a & A & Ha & HA & Hna & HAr & HA0 & HA1 & Hn0 & ->)].
  { now apply (SFleb_zero_l prec emax). }
  destruct (pack_cases n' E' Hn' HE' Hnorm')
    as [[Hz _]|(b & B & Hb & HB & Hnb & HBr & HB0 & HB1 & Hn0' & Hpk)].
  { exfalso. subst n'.
    destruct (Z.eq_dec E E') as [Heq|Hneq]; [specialize (Hnn Heq); lia|].
    specialize (Hnorm' ltac:(lia)). lia. }
  rewrite Hpk in *.
  assert (HAB : A <= B /\ (A = B -> a <= b)).
  { destruct (Z.eq_dec A E) as [HAE|HAE], (Z.eq_dec B E') as [HBE|HBE].
    - specialize (HA0 HAE). specialize (HB0 HBE). subst. split; [lia|].
      intros Heq. apply Hnn. assumption.
    - specialize (HA0 HAE). destruct (HB1 ltac:(lia)) as [-> ->].
      subst. split; [lia|]. intros Heq. lia.
    - destruct (HA1 ltac:(lia)) as [-> ->]. specialize (HB0 HBE). subst.
      destruct (Z.eq_dec E E') as [Heq|Hneq].
      + specialize (Hnn Heq). lia.
      + split; [lia|]. intros Heq. apply Hnorm'. lia.
    - destruct (HA1 ltac:(lia)) as [-> ->].
      destruct (HB1 ltac:(lia)) as [-> ->]. lia. }
  destruct HAB as [HAB1 HAB2].
  destruct (Z.leb_spec A (emax - prec)) as [HAok|HAbig];
    destruct (Z.leb_spec B (emax - prec)) as [HBok|HBbig]; try reflexivity.
  - apply SFleb_finite; [assumption|]. intros Heq. specialize (HAB2 Heq).
    lia.
  - lia.
Qed.

(** Rounding yields a well-formed non-negative value. *)
Theorem rounds_to_nonneg (x : R) (f : spec_float) :
  (0 < x)%R -> rounds_to prec emax x f -> nonneg prec emax f = true.
Proof.
  intros Hx (E & n & HE & Hn & ->).
  destruct (rounded_significand_bounds prec emax Hprec x E n Hx HE Hn)
    as [Hb Hnorm].
  apply pack_nonneg; try assumption. now apply (exp_ok_ge_emin prec emax x).
Qed.

(** Rounding is monotone. *)
Theorem rounds_to_mono (x x' : R) (f f' : spec_float) :
  (0 < x <= x')%R ->
  rounds_to prec emax x f -> rounds_to prec emax x' f' ->
  SFleb f f' = true.
Proof.
  intros [Hx Hxx] (E & n & HE & Hn & ->) (E' & n' & HE' & Hn' & ->).
  assert (Hx' : (0 < x')%R) by lra.
  destruct (rounded_significand_bounds prec emax Hprec x E n Hx HE Hn)
    as [Hb Hnorm].
  destruct (rounded_significand_bounds prec emax Hprec x' E' n' Hx' HE' Hn')
    as [Hb' Hnorm'].
  apply pack_mono; try assumption.
  - now apply (exp_ok_ge_emin prec emax x).
  - now apply (exp_ok_ge_emin prec emax x').
  - now apply (exp_ok_mono x x').
  - intros ->. apply (nearest_even_mono (x / pow2 E') (x' / pow2 E'));
      try assumption.
    pose proof (pow2_pos E'). apply Rmult_le_compat_r; [|assumption].
    apply Rlt_le, Rinv_0_lt_compat. assumption.
Qed.

(** On well-formed positive values the order of the format is the order
    of the reals. *)
Theorem SFleb_B2R (f f' : spec_float) :
  posfin prec emax f = true -> posfin prec emax f' = true ->
  SFleb f f' = true -> (B2R f <= B2R f')%R.
Proof.
  destruct f as [| | |[|] m e]; try discriminate.
  destruct f' as [| | |[|] m' e']; try discriminate.
  cbn [posfin negb andb]. unfold bounded, canonical_mantissa.
  intros Hf Hf' Hle.
  apply andb_prop in Hf, Hf'. destruct Hf as [Hc _], Hf' as [Hc' _].
  apply Z.eqb_eq in Hc, Hc'. unfold SpecFloat.fexp in Hc, Hc'.
  cbn [B2R cond_Zopp]. unfold F2R.
  destruct (Zdigits2_bounds (Zpos m) ltac:(lia)) as [[Dl Du] Dp].
  destruct (Zdigits2_bounds (Zpos m') ltac:(lia)) as [[Dl' Du'] Dp'].
  cbn [Zdigits2] in *.
  set (d := Zpos (digits2_pos m)) in *. set (d' := Zpos (digits2_pos m')) in *.
  pose proof (pow2_pos e) as He. pose proof (pow2_pos e') as He'.
  destruct (SFleb_finite_inv m m' e e' Hle) as [Hlt|[-> Hmm]].
  - assert (Hd' : d' = prec) by lia.
    assert (Hd : d <= prec) by lia.
    assert (H1 : (IZR (Zpos m) < pow2 prec)%R).
    { rewrite pow2_IZR by lia. apply IZR_lt.
      assert (2 ^ d <= 2 ^ prec) by (apply Z.pow_le_mono_r; lia). lia. }
    assert (H2 : (pow2 (prec - 1) <= IZR (Zpos m'))%R).
    { rewrite pow2_IZR by lia. apply IZR_le. now rewrite <- Hd'. }
    assert (H3 : (pow2 (prec + e) <= pow2 (prec - 1 + e'))%R)
      by (apply pow2_le; lia).
    rewrite !pow2_add in H3.
    apply Rle_trans with (pow2 prec * pow2 e)%R.
    + apply Rmult_le_compat_r; lra.
    + apply Rle_trans with (pow2 (prec - 1) * pow2 e')%R; [assumption|].
      apply Rmult_le_compat_r; lra.
  - apply Rmult_le_compat_r; [lra|]. apply IZR_le. lia.
Qed.
End RoundingOrder.

Lemma div_pos_lt_1 (a b : R) : (0 <= a < b)%R -> (0 <= a / b < 1)%R.
Proof.
  intros [Ha Hb]. assert (Hb0 : (0 < b)%R) by lra.
  pose proof (Rinv_0_lt_compat b Hb0) as Hi. unfold Rdiv. split.
  - apply Rmult_le_pos; lra.
  - apply Rmult_lt_reg_r with b; [assumption|].
    rewrite Rmult_assoc, Rinv_l by lra. lra.
Qed.

Lemma div_half_cmp (a b : R) :
  (0 < b)%R ->
  ((2 * a < b -> a / b < / 2) /\ (2 * a = b -> a / b = / 2) /\
   (b < 2 * a -> / 2 < a / b))%R.
Proof.
  intros Hb. repeat split; intros H.
  - apply Rmult_lt_reg_r with b; [assumption|]. unfold Rdiv.
    rewrite Rmult_assoc, Rinv_l by lra. lra.
  - subst b. field. lra.
  - apply Rmult_lt_reg_r with b; [assumption|]. unfold Rdiv.
    rewrite Rmult_assoc, Rinv_l by lra. lra.
Qed.

Lemma new_location_located (q r b : Z) :
  0 <= r < b ->
  located (IZR q + IZR r / IZR b) q (new_location b r).
Proof.
  intros [Hr Hb].
  assert (Hb0 : (0 < IZR b)%R) by (apply IZR_lt; lia).
  destruct (div_half_cmp (IZR r) (IZR b) Hb0) as (Hlt & Heq & Hgt).
  destruct (div_pos_lt_1 (IZR r) (IZR b)) as [Hd0 Hd1].
  { split; [apply IZR_le|apply IZR_lt]; lia. }
  assert (Hnz : r <> 0 -> (0 < IZR r / IZR b)%R).
  { intros Hn. apply Rdiv_lt_0_compat; [apply IZR_lt; lia|assumption]. }
  assert (Hc : forall c, (2 * r ?= b) = c ->
               match c with
               | Lt => (2 * IZR r < IZR b)%R
               | Eq => (2 * IZR r = IZR b)%R
               | Gt => (IZR b < 2 * IZR r)%R
               end).
  { intros c <-. rewrite <- mult_IZR.
    destruct (Z.compare_spec (2 * r) b) as [H|H|H];
      [now rewrite H|now apply IZR_lt|now apply IZR_lt]. }
  unfold new_location, new_location_even, new_location_odd.
  destruct (Z.even b) eqn:Hev; destruct (Z.eqb_spec r 0) as [->|Hr0];
    try (cbn; unfold Rdiv; lra).
  - specialize (Hnz Hr0). specialize (Hc _ eq_refl).
    destruct (2 * r ?= b); cbn; [rewrite (Heq Hc)|specialize (Hlt Hc)|
                                 specialize (Hgt Hc)]; lra.
  - specialize (Hnz Hr0).
    assert (Hodd : 2 * r <> b).
    { intros <-. rewrite Z.even_mul in Hev. discriminate. }
    destruct (Z.compare_spec (2 * r + 1) b) as [H|H|H]; cbn.
    + assert (H2 : (2 * IZR r < IZR b)%R)
        by (rewrite <- mult_IZR; apply IZR_lt; lia).
      specialize (Hlt H2). lra.
    + assert (H2 : (2 * IZR r < IZR b)%R)
        by (rewrite <- mult_IZR; apply IZR_lt; lia).
      specialize (Hlt H2). lra.
    + assert (H2 : (IZR b < 2 * IZR r)%R)
        by (rewrite <- mult_IZR; apply IZR_lt; lia).
      specialize (Hgt H2). lra.
Qed.

Lemma Zdigits2_lower (m k : Z) : 0 <= k -> 2 ^ k <= m -> k + 1 <= Zdigits2 m.
Proof.
  intros Hk Hm.
  assert (0 < 2 ^ k) by (apply Z.pow_pos_nonneg; lia).
  destruct (Zdigits2_bounds m ltac:(lia)) as [[_ Du] Dp].
  destruct (Z_le_gt_dec (k + 1) (Zdigits2 m)) as [|Hgt]; [assumption|].
  assert (2 ^ Zdigits2 m <= 2 ^ k) by (apply Z.pow_le_mono_r; lia). lia.
Qed.

Lemma fexp_mono (prec emax a b : Z) : a <= b -> fexp prec emax a <= fexp prec emax b.
Proof. unfold fexp. lia. Qed.

Lemma F2R_pos (m : positive) (e : Z) : (0 < F2R (Zpos m) e)%R.
Proof.
  unfold F2R. apply Rmult_lt_0_compat; [apply IZR_lt; lia|apply pow2_pos].
Qed.

Lemma posfin_B2R_pos (prec emax : Z) (f : spec_float) :
  posfin prec emax f = true -> (0 < B2R f)%R.
Proof.
  destruct f as [| | |[|] m e]; try discriminate. intros _. apply F2R_pos.
Qed.

Section Operations.
Variables prec emax : Z.
Hypothesis Hprec : 0 < prec.
Hypothesis Hemax : prec < emax.

Local Abbreviation emin := (emin prec emax).
Local Abbreviation fexp := (fexp prec emax).

(** Multiplication of well-formed positive values rounds the exact
    product. *)
Theorem SFmul_rounds (x y : spec_float) :
  posfin prec emax x = true -> posfin prec emax y = true ->
  rounds_to prec emax (B2R x * B2R y) (SFmul prec emax x y).
Proof.
  destruct x as [| | |[|] mx ex]; try discriminate.
  destruct y as [| | |[|] my ey]; try discriminate.
  cbn [posfin negb andb]. unfold bounded, canonical_mantissa.
  intros Hx Hy.
  apply andb_prop in Hx, Hy. destruct Hx as [Hcx _], Hy as [Hcy _].
  apply Z.eqb_eq in Hcx, Hcy. unfold SpecFloat.fexp in Hcx, Hcy.
  cbn [SFmul xorb B2R cond_Zopp].
  pose proof (F2R_pos mx ex) as Px. pose proof (F2R_pos my ey) as Py.
  apply (binary_round_aux_rounds prec emax Hprec).
  - apply Rmult_lt_0_compat; assumption.
  - lia.
  - cbn [located]. unfold F2R. rewrite Pos2Z.inj_mul, mult_IZR, pow2_add.
    pose proof (pow2_pos ex). pose proof (pow2_pos ey). field. lra.
  - unfold SpecFloat.fexp, SpecFloat.emin in *.
    destruct (Zdigits2_bounds (Zpos mx) ltac:(lia)) as [[Dlx _] Dpx].
    destruct (Zdigits2_bounds (Zpos my) ltac:(lia)) as [[Dly _] Dpy].
    cbn [Zdigits2] in Dlx, Dly, Dpx, Dpy.
    assert (Hd : Zpos (digits2_pos mx) + Zpos (digits2_pos my) - 1
                 <= Zdigits2 (Zpos (mx * my))).
    { replace (Zpos (digits2_pos mx) + Zpos (digits2_pos my) - 1)
        with ((Zpos (digits2_pos mx) - 1) + (Zpos (digits2_pos my) - 1) + 1)
        by lia.
      apply Zdigits2_lower; [lia|].
      rewrite Z.pow_add_r by lia. rewrite Pos2Z.inj_mul.
      apply Z.mul_le_mono_nonneg; try assumption;
        apply Z.pow_nonneg; lia. }
    lia.
Qed.

(** Division of positive finite values rounds the exact quotient. *)
Theorem SFdiv_rounds (x y : spec_float) :
  posfin prec emax x = true -> posfin prec emax y = true ->
  rounds_to prec emax (B2R x / B2R y) (SFdiv prec emax x y).
Proof.
  destruct x as [| | |[|] mx ex]; try discriminate.
  destruct y as [| | |[|] my ey]; try discriminate.
  intros _ _. cbn [SFdiv xorb B2R cond_Zopp].
  pose proof (F2R_pos mx ex) as Px. pose proof (F2R_pos my ey) as Py.
  unfold SFdiv_core_binary.
  set (d1 := Zdigits2 (Zpos mx)). set (d2 := Zdigits2 (Zpos my)).
  set (e' := Z.min (fexp (d1 + ex - (d2 + ey))) (ex - ey)).
  set (s := ex - ey - e').
  assert (Hs : 0 <= s) by (unfold s, e'; lia).
  set (m' := match s with
             | 0 => Zpos mx
             | Zpos _ => Z.shiftl (Zpos mx) s
             | Zneg _ => 0
             end).
  assert (Hm' : m' = Zpos mx * 2 ^ s).
  { unfold m'. destruct s as [|p|p] eqn:Hsp; try lia.
    now rewrite Z.shiftl_mul_pow2 by lia. }
  pose proof (Z_div_mod m' (Zpos my) ltac:(lia)) as Hdm.
  destruct (Z.div_eucl m' (Zpos my)) as [q r]. destruct Hdm as [Hq Hr].
  assert (H2s : 0 < 2 ^ s) by (apply Z.pow_pos_nonneg; lia).
  assert (Hq0 : 0 <= q) by nia.
  apply (binary_round_aux_rounds prec emax Hprec).
  - apply Rdiv_lt_0_compat; assumption.
  - assumption.
  - replace (F2R (Zpos mx) ex / F2R (Zpos my) ey / pow2 e')%R
      with (IZR q + IZR r / IZR (Zpos my))%R.
    + apply new_location_located. assumption.
    + unfold F2R.
      replace ex with (s + ey + e') by (unfold s; lia).
      rewrite !pow2_add, (pow2_IZR s Hs).
      assert (Hi : (IZR (Zpos mx) * IZR (2 ^ s)
                    = IZR (Zpos my) * IZR q + IZR r)%R).
      { rewrite <- !mult_IZR, <- plus_IZR. f_equal. lia. }
      pose proof (pow2_pos ey). pose proof (pow2_pos e').
      assert (Hmy : (0 < IZR (Zpos my))%R) by (apply IZR_lt; lia).
      apply Rmult_eq_reg_r with (IZR (Zpos my)); [|lra].
      transitivity (IZR (Zpos my) * IZR q + IZR r)%R; [field; lra|].
      rewrite <- Hi. field. lra.
  - apply Z.le_trans with (fexp (d1 + ex - (d2 + ey))); [unfold e'; lia|].
    apply fexp_mono.
    destruct (Zdigits2_bounds (Zpos mx) ltac:(lia)) as [[Dl1 _] Dp1].
    destruct (Zdigits2_bounds (Zpos my) ltac:(lia)) as [[_ Du2] Dp2].
    fold d1 in Dl1, Dp1. fold d2 in Du2, Dp2.
    pose proof (Zdigits2_nonneg q) as Hdq.
    destruct (Z_le_gt_dec 0 (d1 - 1 + s - d2)) as [Hk|Hk]; [|unfold s in *; lia].
    assert (Hlow : 2 ^ (d1 - 1 + s - d2) <= q).
    { assert (Hpow : 2 ^ (d1 - 1 + s - d2) * 2 ^ d2 = 2 ^ (d1 - 1) * 2 ^ s).
      { rewrite <- !Z.pow_add_r by lia. f_equal. lia. }
      set (K := 2 ^ (d1 - 1 + s - d2)) in *.
      assert (HK : 0 < K) by (apply Z.pow_pos_nonneg; lia).
      destruct (Z_le_gt_dec K q) as [|Hgt]; [assumption|exfalso].
      assert (H1 : Zpos my * (q + 1) <= Zpos my * K)
        by (apply Z.mul_le_mono_nonneg_l; lia).
      assert (H2 : Zpos my * K < 2 ^ d2 * K)
        by (apply Z.mul_lt_mono_pos_r; lia).
      assert (H3 : 2 ^ (d1 - 1) * 2 ^ s <= Zpos mx * 2 ^ s)
        by (apply Z.mul_le_mono_nonneg_r; lia).
      lia. }
    apply Zdigits2_lower in Hlow; [|assumption]. unfold s in *. lia.
Qed.

End Operations.

Lemma iter_xO_pow (m p : positive) :
  Zpos (Pos.iter xO m p) = Zpos m * 2 ^ Zpos p.
Proof.
  induction p as [|p IH] using Pos.peano_ind.
  - cbn. lia.
  - rewrite Pos.iter_succ, Pos2Z.inj_xO, IH, Pos2Z.inj_succ, Z.pow_succ_r by lia.
    lia.
Qed.

Lemma Zdigits2_shift (m k : Z) :
  0 < m -> 0 <= k -> Zdigits2 (m * 2 ^ k) = Zdigits2 m + k.
Proof.
  intros Hm Hk. destruct (Zdigits2_bounds m Hm) as [[Dl Du] Dp].
  assert (H2k : 0 < 2 ^ k) by (apply Z.pow_pos_nonneg; lia).
  apply Zdigits2_unique; [|lia]. split.
  - replace (Zdigits2 m + k - 1) with (Zdigits2 m - 1 + k) by lia.
    rewrite Z.pow_add_r by lia. apply Z.mul_le_mono_nonneg_r; lia.
  - rewrite Z.pow_add_r by lia. apply Z.mul_lt_mono_pos_r; lia.
Qed.

Section Conversion.
Variables prec emax : Z.
Hypothesis Hprec : 0 < prec.
Hypothesis Hemax : prec < emax.

Local Abbreviation emin := (emin prec emax).
Local Abbreviation fexp := (fexp prec emax).

(** [binary_round] rounds the value [m * 2^e]. *)
Theorem binary_round_rounds (m : positive) (e : Z) :
  rounds_to prec emax (F2R (Zpos m) e) (binary_round prec emax false m e).
Proof.
  unfold binary_round, shl_align.
  set (e' := fexp (Zpos (digits2_pos m) + e)).
  pose proof (F2R_pos m e) as Px.
  destruct (e' - e) as [|d|d] eqn:Hd.
  - apply (binary_round_aux_rounds prec emax Hprec); try assumption; try lia.
    + cbn [located]. unfold F2R. pose proof (pow2_pos e). field. lra.
    + cbn [Zdigits2]. fold e'. lia.
  - apply (binary_round_aux_rounds prec emax Hprec); try assumption; try lia.
    + cbn [located]. unfold F2R. pose proof (pow2_pos e). field. lra.
    + cbn [Zdigits2]. fold e'. lia.
  - apply (binary_round_aux_rounds prec emax Hprec); try assumption; try lia.
    + cbn [located]. rewrite iter_xO_pow, mult_IZR. unfold F2R.
      replace e with (Zpos d + e') by lia.
      rewrite pow2_add, <- (pow2_IZR (Zpos d)) by lia.
      pose proof (pow2_pos e'). field. lra.
    + rewrite iter_xO_pow, Zdigits2_shift by lia. cbn [Zdigits2].
      replace (Zpos (digits2_pos m) + Zpos d + e')
        with (Zpos (digits2_pos m) + e) by lia.
      fold e'. lia.
Qed.

(** A value between the least positive number and the overflow
    threshold rounds to a positive finite number. *)
Theorem rounds_to_posfin (x : R) (f : spec_float) :
  (pow2 emin <= x < pow2 (emax - 1))%R ->
  rounds_to prec emax x f -> posfin prec emax f = true.
Proof.
  intros [Hlo Hhi] (E & n & HE & Hn & ->).
  assert (Hx : (0 < x)%R) by (pose proof (pow2_pos emin); lra).
  destruct (rounded_significand_bounds prec emax Hprec x E n Hx HE Hn)
    as [Hb Hnorm].
  pose proof (exp_ok_ge_emin prec emax x E HE) as HEm.
  pose proof (pow2_prec_pos prec Hprec) as Hp.
  assert (Hn1 : 1 <= n).
  { destruct (Z.eq_dec E emin) as [->|Hne].
    - apply (nearest_even_ge (x / pow2 emin)); [|assumption].
      rewrite <- pow2_0. apply scale_le. now rewrite Z.add_0_l.
    - specialize (Hnorm ltac:(lia)). lia. }
  assert (HEu : E + prec <= emax - 1).
  { destruct HE as [[-> H]|[HE1 [H1 H2]]].
    - unfold SpecFloat.emin. lia.
    - assert (Hlt : (pow2 (E + prec - 1) < pow2 (emax - 1))%R) by lra.
      apply pow2_lt_inv in Hlt. lia. }
  destruct (pack_cases prec emax Hprec n E Hb HEm Hnorm)
    as [[Hz _]|(n' & E' & Hn' & HE' & Hnorm' & HEr & _ & _ & _ & ->)];
    [lia|].
  destruct (Z.leb_spec E' (emax - prec)) as [Hok|Hbig]; [|lia].
  cbn. rewrite (canonical_small prec emax Hprec n' E' Hn' HE' Hnorm').
  apply Z.leb_le. assumption.
Qed.
End Conversion.

(** The range of the well-formed positive values of a format. *)
Lemma posfin_range (prec emax : Z) (f : spec_float) :
  0 < prec ->
  posfin prec emax f = true ->
  (pow2 (emin prec emax) <= B2R f < pow2 emax)%R.
Proof.
  intros Hprec. destruct f as [| | |[|] m e]; try discriminate.
  cbn [posfin negb andb]. unfold bounded, canonical_mantissa. intros H.
  apply andb_prop in H. destruct H as [Hc Hb].
  apply Z.eqb_eq in Hc. apply Z.leb_le in Hb. unfold fexp in Hc.
  cbn [B2R cond_Zopp]. unfold F2R.
  destruct (Zdigits2_bounds (Zpos m) ltac:(lia)) as [[Dl Du] Dp].
  cbn [Zdigits2] in *. set (d := Zpos (digits2_pos m)) in *.
  pose proof (pow2_pos e) as He.
  split.
  - apply Rle_trans with (1 * pow2 e)%R.
    + rewrite Rmult_1_l. apply pow2_le. lia.
    + apply Rmult_le_compat_r; [lra|]. apply IZR_le. lia.
  - apply Rlt_le_trans with (pow2 prec * pow2 e)%R.
    + apply Rmult_lt_compat_r; [assumption|].
      rewrite pow2_IZR by lia. apply IZR_lt.
      assert (2 ^ d <= 2 ^ prec) by (apply Z.pow_le_mono_r; lia). lia.
    + rewrite <- pow2_add. apply pow2_le. lia.
Qed.

(** ** Monotonicity of the operations on non-negative values *)

Lemma SFleb_nonneg_cases (prec emax : Z) (x x' : spec_float) :
  nonneg prec emax x = true -> nonneg prec emax x' = true ->
  SFleb x x' = true ->
  x = S754_zero false \/ x' = S754_infinity false \/
  (posfin prec emax x = true /\ posfin prec emax x' = true).
Proof.
  destruct x as [[|]|[|]| |[|] m e]; try discriminate;
    destruct x' as [[|]|[|]| |[|] m' e']; try discriminate;
    cbn [nonneg posfin negb andb]; intros Hx Hx' Hle;
    try discriminate; auto.
Qed.

Section Monotone.
Variables prec emax : Z.
Hypothesis Hprec : 0 < prec.
Hypothesis Hemax : prec < emax.

Lemma SFmul_nonneg (x y : spec_float) :
  nonneg prec emax x = true -> posfin prec emax y = true ->
  nonneg prec emax (SFmul prec emax x y) = true.
Proof.
  intros Hx Hy.
  destruct y as [| | |[|] my ey]; try discriminate.
  destruct x as [[|]|[|]| |[|] mx ex]; try discriminate; try reflexivity.
  apply (rounds_to_nonneg prec emax Hprec
           (B2R (S754_finite false mx ex) * B2R (S754_finite false my ey))).
  - apply Rmult_lt_0_compat; apply F2R_pos.
  - now apply SFmul_rounds.
Qed.

Lemma SFmul_comm (x y : spec_float) :
  SFmul prec emax x y = SFmul prec emax y x.
Proof.
  destruct x as [sx|sx| |sx mx ex], y as [sy|sy| |sy my ey]; cbn;
    rewrite ?(xorb_comm sx sy); try reflexivity.
  now rewrite Pos.mul_comm, Z.add_comm.
Qed.

Theorem SFmul_mono_l (x x' y : spec_float) :
  nonneg prec emax x = true -> nonneg prec emax x' = true ->
  posfin prec emax y = true ->
  SFleb x x' = true ->
  SFleb (SFmul prec emax x y) (SFmul prec emax x' y) = true.
Proof.
  intros Hx Hx' Hy Hle.
  pose proof (SFmul_nonneg x y Hx Hy) as Nx.
  pose proof (SFmul_nonneg x' y Hx' Hy) as Nx'.
  destruct (SFleb_nonneg_cases prec emax x x' Hx Hx' Hle)
    as [->|[->|[Px Px']]].
  - destruct y as [| | |[|] my ey]; try discriminate.
    now apply (SFleb_zero_l prec emax).
  - destruct y as [| | |[|] my ey]; try discriminate.
    now apply (SFleb_inf_r prec emax).
  - pose proof (posfin_B2R_pos _ _ _ Px) as Bx.
    pose proof (posfin_B2R_pos _ _ _ Hy) as By.
    pose proof (SFleb_B2R prec emax Hprec x x' Px Px' Hle) as Bxx.
    apply (rounds_to_mono prec emax Hprec (B2R x * B2R y) (B2R x' * B2R y)).
    + split; [now apply Rmult_lt_0_compat|].
      apply Rmult_le_compat_r; lra.
    + now apply SFmul_rounds.
    + now apply SFmul_rounds.
Qed.

Lemma SFdiv_nonneg_l (x c : spec_float) :
  nonneg prec emax x = true -> posfin prec emax c = true ->
  nonneg prec emax (SFdiv prec emax x c) = true.
Proof.
  intros Hx Hc.
  destruct c as [| | |[|] mc ec]; try discriminate.
  destruct x as [[|]|[|]| |[|] mx ex]; try discriminate; try reflexivity.
  apply (rounds_to_nonneg prec emax Hprec
           (B2R (S754_finite false mx ex) / B2R (S754_finite false mc ec))).
  - apply Rdiv_lt_0_compat; apply F2R_pos.
  - now apply SFdiv_rounds.
Qed.

Theorem SFdiv_mono_l (x x' c : spec_float) :
  nonneg prec emax x = true -> nonneg prec emax x' = true ->
  posfin prec emax c = true ->
  SFleb x x' = true ->
  SFleb (SFdiv prec emax x c) (SFdiv prec emax x' c) = true.
Proof.
  intros Hx Hx' Hc Hle.
  pose proof (SFdiv_nonneg_l x c Hx Hc) as Nx.
  pose proof (SFdiv_nonneg_l x' c Hx' Hc) as Nx'.
  destruct (SFleb_nonneg_cases prec emax x x' Hx Hx' Hle)
    as [->|[->|[Px Px']]].
  - destruct c as [| | |[|] mc ec]; try discriminate.
    now apply (SFleb_zero_l prec emax).
  - destruct c as [| | |[|] mc ec]; try discriminate.
    now apply (SFleb_inf_r prec emax).
  - pose proof (posfin_B2R_pos _ _ _ Px) as Bx.
    pose proof (posfin_B2R_pos _ _ _ Hc) as Bc.
    pose proof (SFleb_B2R prec emax Hprec x x' Px Px' Hle) as Bxx.
    apply (rounds_to_mono prec emax Hprec (B2R x / B2R c) (B2R x' / B2R c)).
    + split; [now apply Rdiv_lt_0_compat|].
      apply Rmult_le_compat_r; [|lra].
      apply Rlt_le, Rinv_0_lt_compat. assumption.
    + now apply SFdiv_rounds.
    + now apply SFdiv_rounds.
Qed.

Lemma SFdiv_nonneg_r (c x : spec_float) :
  posfin prec emax c = true -> nonneg prec emax x = true ->
  nonneg prec emax (SFdiv prec emax c x) = true.
Proof.
  intros Hc Hx.
  destruct c as [| | |[|] mc ec]; try discriminate.
  destruct x as [[|]|[|]| |[|] mx ex]; try discriminate; try reflexivity.
  apply (rounds_to_nonneg prec emax Hprec
           (B2R (S754_finite false mc ec) / B2R (S754_finite false mx ex))).
  - apply Rdiv_lt_0_compat; apply F2R_pos.
  - now apply SFdiv_rounds.
Qed.

(** Division is antitone in the divisor; a zero divisor gives
    [+infinity] and an infinite one gives [+0]. *)
Theorem SFdiv_anti_r (c x x' : spec_float) :
  posfin prec emax c = true ->
  nonneg prec emax x = true -> nonneg prec emax x' = true ->
  SFleb x x' = true ->
  SFleb (SFdiv prec emax c x') (SFdiv prec emax c x) = true.
Proof.
  intros Hc Hx Hx' Hle.
  pose proof (SFdiv_nonneg_r c x Hc Hx) as Nx.
  pose proof (SFdiv_nonneg_r c x' Hc Hx') as Nx'.
  destruct (SFleb_nonneg_cases prec emax x x' Hx Hx' Hle)
    as [->|[->|[Px Px']]].
  - destruct c as [| | |[|] mc ec]; try discriminate.
    now apply (SFleb_inf_r prec emax).
  - destruct c as [| | |[|] mc ec]; try discriminate.
    now apply (SFleb_zero_l prec emax).
  - pose proof (posfin_B2R_pos _ _ _ Px) as Bx.
    pose proof (posfin_B2R_pos _ _ _ Px') as Bx'.
    pose proof (posfin_B2R_pos _ _ _ Hc) as Bc.
    pose proof (SFleb_B2R prec emax Hprec x x' Px Px' Hle) as Bxx.
    apply (rounds_to_mono prec emax Hprec (B2R c / B2R x') (B2R c / B2R x)).
    + split; [now apply Rdiv_lt_0_compat|].
      apply Rmult_le_compat_l; [lra|]. apply Rinv_le_contravar; lra.
    + now apply SFdiv_rounds.
    + now apply SFdiv_rounds.
Qed.
End Monotone.

Section ConversionMonotone.
(** From the format [(ps, es)] to the format [(pd, ed)]. *)
Variables ps es pd ed : Z.
Hypothesis Hps : 0 < ps.
Hypothesis Hpd : 0 < pd.

Lemma SFconv_nonneg (x : spec_float) :
  nonneg ps es x = true -> nonneg pd ed (IEEE.SFconv pd ed x) = true.
Proof.
  destruct x as [[|]|[|]| |[|] m e]; try discriminate; try reflexivity.
  intros _. cbn [IEEE.SFconv].
  apply (rounds_to_nonneg pd ed Hpd (F2R (Zpos m) e)).
  - apply F2R_pos.
  - now apply binary_round_rounds.
Qed.

Theorem SFconv_mono (x x' : spec_float) :
  nonneg ps es x = true -> nonneg ps es x' = true ->
  SFleb x x' = true ->
  SFleb (IEEE.SFconv pd ed x) (IEEE.SFconv pd ed x') = true.
Proof.
  intros Hx Hx' Hle.
  pose proof (SFconv_nonneg x Hx) as Nx.
  pose proof (SFconv_nonneg x' Hx') as Nx'.
  destruct (SFleb_nonneg_cases ps es x x' Hx Hx' Hle)
    as [->|[->|[Px Px']]].
  - now apply (SFleb_zero_l pd ed).
  - now apply (SFleb_inf_r pd ed).
  - pose proof (SFleb_B2R ps es Hps x x' Px Px' Hle) as Bxx.
    destruct x as [| | |[|] m e]; try discriminate.
    destruct x' as [| | |[|] m' e']; try discriminate.
    cbn [IEEE.SFconv]. cbn [B2R cond_Zopp] in Bxx.
    apply (rounds_to_mono pd ed Hpd (F2R (Zpos m) e) (F2R (Zpos m') e')).
    + split; [apply F2R_pos|assumption].
    + now apply binary_round_rounds.
    + now apply binary_round_rounds.
Qed.

(** Widening keeps positive finite values positive and finite. *)
Theorem SFconv_posfin (x : spec_float) :
  pd < ed -> emin pd ed <= emin ps es -> es <= ed - 1 ->
  posfin ps es x = true -> posfin pd ed (IEEE.SFconv pd ed x) = true.
Proof.
  intros Hed Hmin Hmax Px.
  pose proof (posfin_range ps es x Hps Px) as [Hlo Hhi].
  destruct x as [| | |[|] m e]; try discriminate.
  cbn [IEEE.SFconv]. cbn [B2R cond_Zopp] in Hlo, Hhi.
  apply (rounds_to_posfin pd ed Hpd Hed (F2R (Zpos m) e)).
  - split.
    + apply Rle_trans with (pow2 (emin ps es)); [now apply pow2_le|assumption].
    + apply Rlt_le_trans with (pow2 es); [assumption|now apply pow2_le].
  - now apply binary_round_rounds.
Qed.
End ConversionMonotone.

(** ** Conversion to [uint32_t] *)

Lemma trunc_mag_floor (m : positive) (e : Z) :
  (IZR (IEEE.trunc_mag m e) <= F2R (Zpos m) e < IZR (IEEE.trunc_mag m e) + 1)%R.
Proof.
  unfold IEEE.trunc_mag, F2R. destruct e as [|p|p].
  - rewrite Z.shiftl_0_r, pow2_0. lra.
  - rewrite Z.shiftl_mul_pow2 by lia. rewrite mult_IZR, <- pow2_IZR by lia. lra.
  - rewrite Z.shiftr_div_pow2 by lia.
    pose proof (Z_div_mod (Zpos m) (2 ^ Zpos p)
                  ltac:(apply Z.lt_gt, Z.pow_pos_nonneg; lia)) as H.
    unfold Z.div. destruct (Z.div_eucl (Zpos m) (2 ^ Zpos p)) as [q r].
    destruct H as [Hq Hr].
    change (Zneg p) with (- Zpos p). rewrite pow2_opp, (pow2_IZR (Zpos p)) by lia.
    assert (H2 : (0 < IZR (2 ^ Zpos p))%R) by (apply IZR_lt; lia).
    rewrite Hq, plus_IZR, mult_IZR.
    destruct (div_pos_lt_1 (IZR r) (IZR (2 ^ Zpos p))) as [D0 D1].
    { split; [apply IZR_le|apply IZR_lt]; lia. }
    replace ((IZR (2 ^ Zpos p) * IZR q + IZR r) * / IZR (2 ^ Zpos p))%R
      with (IZR q + IZR r / IZR (2 ^ Zpos p))%R by (field; lra).
    lra.
Qed.

Lemma trunc_mag_nonneg (m : positive) (e : Z) : 0 <= IEEE.trunc_mag m e.
Proof.
  unfold IEEE.trunc_mag. destruct e.
  - rewrite Z.shiftl_0_r. lia.
  - apply Z.shiftl_nonneg. lia.
  - apply Z.shiftr_nonneg. lia.
Qed.

(** On non-negative values the conversion is monotone, and defined below
    any value on which it is defined. *)
Theorem u32_of_float_mono (prec emax : Z) (x x' : spec_float) (r' : Z) :
  0 < prec ->
  nonneg prec emax x = true -> nonneg prec emax x' = true ->
  SFleb x x' = true ->
  IEEE.u32_of_float x' = Some r' ->
  exists r, IEEE.u32_of_float x = Some r /\ 0 <= r <= r'.
Proof.
  intros Hprec Hx Hx' Hle Hr'.
  destruct (SFleb_nonneg_cases prec emax x x' Hx Hx' Hle)
    as [->|[->|[Px Px']]].
  - exists 0. split; [reflexivity|].
    destruct x' as [[|]|[|]| |[|] m' e']; try discriminate.
    + injection Hr' as <-. lia.
    + cbn in Hr'. pose proof (trunc_mag_nonneg m' e').
      destruct (_ <? _); [injection Hr' as <-; lia|discriminate].
  - discriminate.
  - pose proof (SFleb_B2R prec emax Hprec x x' Px Px' Hle) as Bxx.
    destruct x as [| | |[|] m e]; try discriminate.
    destruct x' as [| | |[|] m' e']; try discriminate.
    cbn [B2R cond_Zopp] in Bxx. cbn [IEEE.u32_of_float] in *.
    pose proof (trunc_mag_floor m e) as [F1 F2].
    pose proof (trunc_mag_floor m' e') as [F1' F2'].
    pose proof (trunc_mag_nonneg m e) as T0.
    assert (Ht : IEEE.trunc_mag m e <= IEEE.trunc_mag m' e')
      by (apply IZR_lt_succ_le; lra).
    destruct (Z.ltb_spec (IEEE.trunc_mag m' e') (2 ^ 32)) as [Hlt|]; [|discriminate].
    injection Hr' as <-.
    exists (IEEE.trunc_mag m e). split; [|lia].
    destruct (Z.ltb_spec (IEEE.trunc_mag m e) (2 ^ 32)); [reflexivity|lia].
Qed.

Section MonotoneRight.
Variables prec emax : Z.
Hypothesis Hprec : 0 < prec.
Hypothesis Hemax : prec < emax.

Theorem SFmul_mono_r (c y y' : spec_float) :
  nonneg prec emax c = true ->
  posfin prec emax y = true -> posfin prec emax y' = true ->
  SFleb y y' = true ->
  SFleb (SFmul prec emax c y) (SFmul prec emax c y') = true.
Proof.
  intros Hc Hy Hy' Hle.
  destruct c as [[|]|[|]| |[|] mc ec] eqn:Ec; try discriminate.
  - destruct y as [| | |[|] my ey]; try discriminate.
    destruct y' as [| | |[|] my' ey']; try discriminate. reflexivity.
  - destruct y as [| | |[|] my ey]; try discriminate.
    destruct y' as [| | |[|] my' ey']; try discriminate. reflexivity.
  - rewrite (SFmul_comm prec emax _ y), (SFmul_comm prec emax _ y').
    apply (SFmul_mono_l prec emax Hprec Hemax); try assumption;
      now apply posfin_nonneg.
Qed.
End MonotoneRight.

(** ** Monotonicity of the threshold calculation *)

Lemma calc_tstep_eq (hd : Header) (g : Globals) (axis : Z)
    (speed percent : spec_float) :
  calc_tstep hd g axis speed percent =
    let s := axis_settings g axis in
    if microsteps s =? 0 then Fault int_div_by_zero
    else match IEEE.u32_of_float
                 (tstep_value (TRINAMIC_FCLK hd) (step_rate s speed) percent) with
         | Some n => Ok n
         | None => Fault float_to_uint_range
         end.
Proof. reflexivity. Qed.

Lemma prec32 : 0 < 24. Proof. reflexivity. Qed.
Lemma emax32 : 24 < 128. Proof. reflexivity. Qed.
Lemma prec64 : 0 < 53. Proof. reflexivity. Qed.
Lemma emax64 : 53 < 1024. Proof. reflexivity. Qed.

Lemma widen_posfin (x : spec_float) :
  posfin 24 128 x = true -> posfin 53 1024 (IEEE.f64_of_f32 x) = true.
Proof.
  apply (SFconv_posfin 24 128 53 1024 prec32 prec64); [reflexivity| |];
    vm_compute; discriminate.
Qed.

Lemma widen_nonneg (x : spec_float) :
  nonneg 24 128 x = true -> nonneg 53 1024 (IEEE.f64_of_f32 x) = true.
Proof. apply (SFconv_nonneg 24 128 53 1024 prec64). Qed.

Lemma narrow_nonneg (x : spec_float) :
  nonneg 53 1024 x = true -> nonneg 24 128 (IEEE.f32_of_f64 x) = true.
Proof. apply (SFconv_nonneg 53 1024 24 128 prec32). Qed.

Lemma microstep_factor_posfin (ms : Z) :
  In ms microstep_settings ->
  posfin 53 1024 (IEEE.f64_of_f32 (microstep_factor ms)) = true.
Proof.
  unfold microstep_settings. cbn [In].
  intros H; repeat (destruct H as [<-|H]; [reflexivity|]); contradiction.
Qed.

Section CalcMonotone.
Variable s : AxisSettings.
Variable fclk : spec_float.
Hypothesis Hspm : posfin 24 128 (steps_per_mm s) = true.
Hypothesis Hms : In (microsteps s) microstep_settings.
Hypothesis Hclk : posfin 53 1024 fclk = true.

Lemma step_rate_nonneg (speed : spec_float) :
  nonneg 24 128 speed = true -> nonneg 24 128 (step_rate s speed) = true.
Proof.
  intros H. unfold step_rate. apply narrow_nonneg.
  apply (SFmul_nonneg 53 1024 prec64 emax64);
    [|now apply microstep_factor_posfin].
  apply (SFmul_nonneg 53 1024 prec64 emax64); [|now apply widen_posfin].
  apply (SFdiv_nonneg_l 53 1024 prec64); [|reflexivity].
  now apply widen_nonneg.
Qed.

Lemma step_rate_mono (speed speed' : spec_float) :
  nonneg 24 128 speed = true -> nonneg 24 128 speed' = true ->
  SFleb speed speed' = true ->
  SFleb (step_rate s speed) (step_rate s speed') = true.
Proof.
  intros H H' Hle. unfold step_rate.
  pose proof (widen_nonneg _ H) as W. pose proof (widen_nonneg _ H') as W'.
  pose proof (SFdiv_nonneg_l 53 1024 prec64 _ (IEEE.f64_of_Z 60) W eq_refl) as D.
  pose proof (SFdiv_nonneg_l 53 1024 prec64 _ (IEEE.f64_of_Z 60) W' eq_refl) as D'.
  pose proof (widen_posfin _ Hspm) as Ps.
  pose proof (microstep_factor_posfin _ Hms) as Pf.
  apply (SFconv_mono 53 1024 24 128 prec64 prec32).
  - apply (SFmul_nonneg 53 1024 prec64 emax64); [|assumption].
    now apply (SFmul_nonneg 53 1024 prec64 emax64).
  - apply (SFmul_nonneg 53 1024 prec64 emax64); [|assumption].
    now apply (SFmul_nonneg 53 1024 prec64 emax64).
  - apply (SFmul_mono_l 53 1024 prec64 emax64); try assumption;
      try (now apply (SFmul_nonneg 53 1024 prec64 emax64)).
    apply (SFmul_mono_l 53 1024 prec64 emax64); try assumption.
    apply (SFdiv_mono_l 53 1024 prec64); try assumption; try reflexivity.
    now apply (SFconv_mono 24 128 53 1024 prec32 prec64).
Qed.

Lemma quotient_nonneg (rate percent : spec_float) :
  nonneg 24 128 rate = true -> posfin 24 128 percent = true ->
  nonneg 53 1024
    (IEEE.f64_div
       (IEEE.f64_mul (IEEE.f64_div fclk (IEEE.f64_of_f32 rate))
                     (IEEE.f64_of_f32 percent))
       (IEEE.f64_of_Z 100)) = true.
Proof.
  intros Hr Hp.
  apply (SFdiv_nonneg_l 53 1024 prec64); [|reflexivity].
  apply (SFmul_nonneg 53 1024 prec64 emax64); [|now apply widen_posfin].
  apply (SFdiv_nonneg_r 53 1024 prec64); [assumption|now apply widen_nonneg].
Qed.

Lemma tstep_value_nonneg (rate percent : spec_float) :
  nonneg 24 128 rate = true -> posfin 24 128 percent = true ->
  nonneg 24 128 (tstep_value fclk rate percent) = true.
Proof.
  intros Hr Hp. unfold tstep_value. apply narrow_nonneg.
  now apply quotient_nonneg.
Qed.

Lemma tstep_value_anti (rate rate' percent : spec_float) :
  nonneg 24 128 rate = true -> nonneg 24 128 rate' = true ->
  posfin 24 128 percent = true ->
  SFleb rate rate' = true ->
  SFleb (tstep_value fclk rate' percent) (tstep_value fclk rate percent) = true.
Proof.
  intros Hr Hr' Hp Hle. unfold tstep_value.
  pose proof (widen_nonneg _ Hr) as W. pose proof (widen_nonneg _ Hr') as W'.
  pose proof (widen_posfin _ Hp) as Pp.
  pose proof (SFdiv_nonneg_r 53 1024 prec64 fclk _ Hclk W) as D.
  pose proof (SFdiv_nonneg_r 53 1024 prec64 fclk _ Hclk W') as D'.
  apply (SFconv_mono 53 1024 24 128 prec64 prec32);
    try (now apply quotient_nonneg).
  apply (SFdiv_mono_l 53 1024 prec64); try reflexivity;
    try (now apply (SFmul_nonneg 53 1024 prec64 emax64)).
  apply (SFmul_mono_l 53 1024 prec64 emax64); try assumption.
  apply (SFdiv_anti_r 53 1024 prec64); try assumption.
  now apply (SFconv_mono 24 128 53 1024 prec32 prec64).
Qed.

Lemma tstep_value_mono (rate percent percent' : spec_float) :
  nonneg 24 128 rate = true ->
  posfin 24 128 percent = true -> posfin 24 128 percent' = true ->
  SFleb percent percent' = true ->
  SFleb (tstep_value fclk rate percent) (tstep_value fclk rate percent') = true.
Proof.
  intros Hr Hp Hp' Hle. unfold tstep_value.
  pose proof (widen_nonneg _ Hr) as W.
  pose proof (widen_posfin _ Hp) as Pp. pose proof (widen_posfin _ Hp') as Pp'.
  pose proof (SFdiv_nonneg_r 53 1024 prec64 fclk _ Hclk W) as D.
  apply (SFconv_mono 53 1024 24 128 prec64 prec32);
    try (now apply quotient_nonneg).
  apply (SFdiv_mono_l 53 1024 prec64); try reflexivity;
    try (now apply (SFmul_nonneg 53 1024 prec64 emax64)).
  apply (SFmul_mono_r 53 1024 prec64 emax64); try assumption.
  apply (SFconv_mono 24 128 53 1024 prec32 prec64); try assumption;
    now apply posfin_nonneg.
Qed.
End CalcMonotone.

(** C4 as stated fails: with the sample settings the speeds
    13500000 * 2^-36 and 13500001 * 2^-36 are positive, finite and
    ordered, but the float computed at the lower one is 2^32 and has no
    [uint32_t] value, while the higher one gives 4294966784: there is no
    pair of results to compare. *)
Lemma calc_tstep_undefined_at_small_speed :
  posfin 24 128 (S754_finite false 13500000 (-36)) = true /\
  posfin 24 128 (S754_finite false 13500001 (-36)) = true /\
  posfin 24 128 (IEEE.f32_of_Z 150) = true /\
  SFleb (S754_finite false 13500000 (-36)) (S754_finite false 13500001 (-36))
    = true /\
  calc_tstep sample_header (sample_globals 16) 0
             (S754_finite false 13500000 (-36)) (IEEE.f32_of_Z 150)
    = Fault float_to_uint_range /\
  calc_tstep sample_header (sample_globals 16) 0
             (S754_finite false 13500001 (-36)) (IEEE.f32_of_Z 150)
    = Ok 4294966784 /\
  ~ (exists r r',
       calc_tstep sample_header (sample_globals 16) 0
                  (S754_finite false 13500000 (-36)) (IEEE.f32_of_Z 150) = Ok r /\
       calc_tstep sample_header (sample_globals 16) 0
                  (S754_finite false 13500001 (-36)) (IEEE.f32_of_Z 150) = Ok r' /\
       r' <= r).
Proof.
  assert (Hf : calc_tstep sample_header (sample_globals 16) 0
                 (S754_finite false 13500000 (-36)) (IEEE.f32_of_Z 150)
               = Fault float_to_uint_range) by (vm_compute; reflexivity).
  do 4 (split; [vm_compute; reflexivity|]).
  split; [exact Hf|]. split; [vm_compute; reflexivity|].
  intros (r & r' & Hr & _). rewrite Hf in Hr. discriminate.
Qed.

(** C4, amended: for a positive clock, positive steps per unit and a
    microstep resolution among 1, 2, 4, ..., 256, and on positive finite
    speeds and percentages, [calc_tstep] is monotone wherever its result
    is defined: if it returns a value at a speed, it returns a value that
    is not larger at every higher speed, and if it returns a value at a
    percentage, it returns a value that is not larger at every lower
    percentage. *)
Theorem calc_tstep_monotone (hd : Header) (g : Globals) (axis : Z)
    (Hclk : posfin 53 1024 (TRINAMIC_FCLK hd) = true)
    (Hspm : posfin 24 128 (steps_per_mm (axis_settings g axis)) = true)
    (Hms : In (microsteps (axis_settings g axis)) microstep_settings) :
  (forall speed speed' percent r,
     posfin 24 128 speed = true -> posfin 24 128 speed' = true ->
     posfin 24 128 percent = true ->
     SFleb speed speed' = true ->
     calc_tstep hd g axis speed percent = Ok r ->
     exists r', calc_tstep hd g axis speed' percent = Ok r' /\ 0 <= r' <= r) /\
  (forall speed percent percent' r',
     posfin 24 128 speed = true ->
     posfin 24 128 percent = true -> posfin 24 128 percent' = true ->
     SFleb percent percent' = true ->
     calc_tstep hd g axis speed percent' = Ok r' ->
     exists r, calc_tstep hd g axis speed percent = Ok r /\ 0 <= r <= r').
Proof.
  set (s := axis_settings g axis) in *.
  assert (Hnz : (microsteps s =? 0) = false).
  { apply Z.eqb_neq. intros H0. rewrite H0 in Hms. cbn in Hms.
    repeat (destruct Hms as [Hms|Hms]; [discriminate|]). contradiction. }
  split.
  - intros speed speed' percent r Hs Hs' Hp Hle.
    rewrite !calc_tstep_eq. cbv zeta. fold s. rewrite Hnz.
    destruct (IEEE.u32_of_float (tstep_value _ (step_rate s speed) percent))
      as [n|] eqn:Hu; [|discriminate].
    intros Hr. injection Hr as <-.
    apply posfin_nonneg in Hs, Hs'.
    destruct (u32_of_float_mono 24 128
                (tstep_value (TRINAMIC_FCLK hd) (step_rate s speed') percent)
                (tstep_value (TRINAMIC_FCLK hd) (step_rate s speed) percent)
                n prec32) as (r' & Hr' & Hb); try assumption.
    + apply tstep_value_nonneg; try assumption. now apply step_rate_nonneg.
    + apply tstep_value_nonneg; try assumption. now apply step_rate_nonneg.
    + apply tstep_value_anti; try assumption;
        try (now apply step_rate_nonneg).
      now apply step_rate_mono.
    + exists r'. rewrite Hr'. auto.
  - intros speed percent percent' r' Hs Hp Hp' Hle.
    rewrite !calc_tstep_eq. cbv zeta. fold s. rewrite Hnz.
    destruct (IEEE.u32_of_float (tstep_value _ (step_rate s speed) percent'))
      as [n|] eqn:Hu; [|discriminate].
    intros Hr. injection Hr as <-.
    apply posfin_nonneg in Hs.
    pose proof (step_rate_nonneg s Hspm Hms speed Hs) as Hrate.
    destruct (u32_of_float_mono 24 128
                (tstep_value (TRINAMIC_FCLK hd) (step_rate s speed) percent)
                (tstep_value (TRINAMIC_FCLK hd) (step_rate s speed) percent')
                n prec32) as (r & Hr & Hb); try assumption.
    + now apply tstep_value_nonneg.
    + now apply tstep_value_nonneg.
    + now apply tstep_value_mono.
    + exists r. rewrite Hr. auto.
Qed.

Lemma calc_tstep_monotone_witness :
  (exists r', calc_tstep sample_header (sample_globals 16) 0
                (IEEE.f32_of_Z 1200) (IEEE.f32_of_Z 150) = Ok r' /\
              0 <= r' <= 1406) /\
  (exists r, calc_tstep sample_header (sample_globals 16) 0
               (IEEE.f32_of_Z 600) (IEEE.f32_of_Z 60) = Ok r /\
             0 <= r <= 1406).
Proof.
  destruct (calc_tstep_monotone sample_header (sample_globals 16) 0
              eq_refl eq_refl ltac:(vm_compute; tauto)) as [Hs Hp].
  split.
  - apply (Hs (IEEE.f32_of_Z 600) (IEEE.f32_of_Z 1200) (IEEE.f32_of_Z 150) 1406);
      vm_compute; reflexivity.
  - apply (Hp (IEEE.f32_of_Z 600) (IEEE.f32_of_Z 60) (IEEE.f32_of_Z 150) 1406);
      vm_compute; reflexivity.
Defined.

(** ** The integer microstep factor *)






Section Magnitude.
Variables prec emax : Z.
Hypothesis Hprec : 0 < prec.
Hypothesis Hemax : prec < emax.

Local Abbreviation emin := (emin prec emax).

End Magnitude.







(** * Further properties of the class *)

(** ** Construction *)

(** X1: with a supported part number the constructor creates the matching
    driver object, raises the chip-select pin before it makes it an
    output, does both before any driver call, and calls the driver only
    to lower the SPI speed when the pin is an I2S pin. *)
Theorem constructor_supported (hd : Header) (g : Globals) (raw : TrinamicDriver)
    (axis step dir dis cs pn : Z) (r_sense : spec_float) (spi : Z) (w0 : world)
    (Hax : MAX_AXES hd <> 0)
    (Hpn : pn = 2130 \/ pn = 5160) :
  let r := new_TrinamicDriver hd g raw axis step dir dis cs pn r_sense spi w0 in
  let c := if pn =? 2130 then TMC.TMC2130Stepper else TMC.TMC5160Stepper in
  let t := with_axis_name
             (axis_name_of g (Z.rem axis (MAX_AXES hd)) (if axis <? 6 then 0 else 1))
             (assigned hd raw axis step dir dis cs pn r_sense spi (Some c)) in
  let speed := if I2S_OUT_PIN_BASE hd <=? cs
               then [tmc TMC.setSPISpeed [VInt (TRINAMIC_SPI_FREQ hd)]]
               else [] in
  fst r = Ok tt /\
  this (snd r) = t /\
  out (snd r) =
    out w0 ++ [set_axis_name; init_step_dir_pins;
               digitalWrite cs (HIGH hd); pinMode cs (OUTPUT hd)]
           ++ speed
           ++ [grbl_msg_sendf
                 "%s Axis Trinamic TMC%d Step:%s Dir:%s CS:%s Disable:%s Index:%d"
                 [VStr (_axis_name t); VInt pn;
                  VStr (pinName g step); VStr (pinName g dir);
                  VStr (pinName g cs); VStr (pinName g dis); VInt spi]] /\
  tmc_calls (out (snd r)) = tmc_calls (out w0) ++ speed.
Proof.
  intros r c t speed.
  assert (Hr : r = (Ok tt,
                    {| this := t;
                       out := out w0 ++ [set_axis_name; init_step_dir_pins;
                                         digitalWrite cs (HIGH hd);
                                         pinMode cs (OUTPUT hd)]
                              ++ speed
                              ++ [grbl_msg_sendf
                                    "%s Axis Trinamic TMC%d Step:%s Dir:%s CS:%s Disable:%s Index:%d"
                                    [VStr (_axis_name t); VInt pn;
                                     VStr (pinName g step); VStr (pinName g dir);
                                     VStr (pinName g cs); VStr (pinName g dis);
                                     VInt spi]] |})).
  { unfold r, t, speed, c, new_TrinamicDriver.
    destruct (Z.eqb_spec (MAX_AXES hd) 0); [contradiction|].
    destruct Hpn as [-> | ->]; cbn [Z.eqb Pos.eqb];
      unfold config_message; run; unfold call; cbn;
      destruct (I2S_OUT_PIN_BASE hd <=? cs); cbn;
      rewrite <- ?app_assoc; reflexivity. }
  rewrite Hr. cbn [fst snd this out].
  repeat split.
  unfold tmc_calls. rewrite !filter_app. cbn [filter is_tmc].
  unfold speed. destruct (I2S_OUT_PIN_BASE hd <=? cs); cbn;
    now rewrite ?app_nil_r.
Qed.

Lemma constructor_supported_witness :
  tmcstepper (this (snd (sample_new 5160))) = Some TMC.TMC5160Stepper /\
  tmc_calls (out (snd (sample_new 5160))) = [].
Proof.
  destruct (constructor_supported sample_header (sample_globals 16) sample_raw
              0 12 14 13 17 5160 (IEEE.f32_of_Z 0) 1
              {| this := sample_raw; out := [] |}
              ltac:(discriminate) (or_intror eq_refl))
    as (_ & Ht & _ & Hc).
  unfold sample_new. split; [rewrite Ht; reflexivity|exact Hc].
Defined.

(** X2: with six axes, the axis number handed to the constructor (0 to
    11) is recovered from the stored axis index and ganged flag, and the
    stored index is a valid axis. *)
Theorem axis_index_decomposition (hd : Header) (raw : TrinamicDriver)
    (axis step dir dis cs pn : Z) (r_sense : spec_float) (spi : Z)
    (drv : option TMC.chip)
    (H6 : MAX_AXES hd = 6) (Haxis : 0 <= axis < 12) :
  let t := assigned hd raw axis step dir dis cs pn r_sense spi drv in
  0 <= axis_index t < 6 /\
  (dual_axis_index t = 0 \/ dual_axis_index t = 1) /\
  axis_index t + 6 * dual_axis_index t = axis.
Proof.
  cbn [assigned axis_index dual_axis_index]. rewrite H6.
  rewrite Z.rem_mod_nonneg by lia.
  destruct (Z.ltb_spec axis 6) as [Hlt|Hge].
  - rewrite Z.mod_small by lia. lia.
  - assert (Hm : axis mod 6 = axis - 6).
    { symmetry. apply (Z.mod_unique axis 6 1); lia. }
    rewrite Hm. lia.
Qed.

Lemma axis_index_decomposition_witness :
  let t := assigned sample_header sample_raw 7 12 14 13 17 2130
                    (IEEE.f32_of_Z 0) 1 None in
  0 <= axis_index t < 6 /\
  (dual_axis_index t = 0 \/ dual_axis_index t = 1) /\
  axis_index t + 6 * dual_axis_index t = 7.
Proof.
  exact (axis_index_decomposition sample_header sample_raw 7 12 14 13 17 2130
           (IEEE.f32_of_Z 0) 1 None eq_refl ltac:(lia)).
Defined.

(** ** Initialisation *)

Lemma read_settings_run (g : Globals) (w : world) (c : TMC.chip) :
  tmcstepper (this w) = Some c ->
  let s := axis_settings g (axis_index (this w)) in
  read_settings g w =
    (Ok tt,
     says w
       [tmc TMC.microsteps [VInt (microsteps s)];
        tmc TMC.rms_current
            [VDouble (IEEE.f64_mul (IEEE.f64_of_f32 (run_current s)) (IEEE.f64_of_Z 1000));
             VDouble (IEEE.f64_div (IEEE.f64_of_f32 (hold_current s)) (IEEE.f64_of_Z 100))];
        tmc TMC.sgt [VInt (stallguard s)]]).
Proof.
  intros Hdrv s. unfold read_settings. run. fold s.
  rewrite (call_some _ _ w c Hdrv).
  rewrite (call_some _ _ (say w _) c Hdrv).
  rewrite (call_some _ _ (say (say w _) _) c Hdrv).
  unfold say, says. cbn. now rewrite <- !app_assoc.
Qed.

Lemma test_result_world (hd : Header) (g : Globals) (w : world) (c : TMC.chip) :
  tmcstepper (this w) = Some c ->
  exists b e, test hd g w = (Ok b, say w e) /\ is_tmc e = false.
Proof.
  intros H. rewrite (test_run hd g w c H). cbv zeta.
  destruct (_ =? 1); [|destruct (_ =? 2)]; eexists; eexists; split;
    reflexivity.
Qed.

(** [init] on an object with a driver, when the selected mode needs no
    computed threshold. *)
Lemma init_run (hd : Header) (g : Globals) (w : world) (c : TMC.chip) :
  tmcstepper (this w) = Some c ->
  select_mode hd (this w) = TRINAMIC_RUN_MODE_STEALTHCHOP hd \/
  select_mode hd (this w) = TRINAMIC_RUN_MODE_COOLSTEP hd ->
  let s := axis_settings g (axis_index (this w)) in
  exists e tail,
    is_tmc e = false /\
    (forall m a, In (tmc m a) tail ->
                 ~ In m [TMC.begin; TMC.microsteps; TMC.sgt]) /\
    init hd g w =
      (Ok tt,
       {| this := with_is_active true
                    (with_is_homing false
                       (with_mode (select_mode hd (this w)) (this w)));
          out := (out w ++
                  [SPI_begin; tmc TMC.begin []; e;
                   tmc TMC.microsteps [VInt (microsteps s)];
                   tmc TMC.rms_current
                       [VDouble (IEEE.f64_mul (IEEE.f64_of_f32 (run_current s))
                                              (IEEE.f64_of_Z 1000));
                        VDouble (IEEE.f64_div (IEEE.f64_of_f32 (hold_current s))
                                              (IEEE.f64_of_Z 100))];
                   tmc TMC.sgt [VInt (stallguard s)]]) ++ tail |}).
Proof.
  intros Hdrv Hmode s. unfold init. unfold bind at 1. unfold emit at 1.
  set (w1 := {| this := this w; out := out w ++ [SPI_begin] |}).
  unfold bind at 1. rewrite (call_some _ _ w1 c Hdrv).
  unfold bind at 1.
  destruct (test_result_world hd g (say w1 (tmc TMC.begin [])) c Hdrv)
    as (b & e & Ht & He).
  rewrite Ht. set (w2 := say (say w1 (tmc TMC.begin [])) e).
  unfold bind at 1. rewrite (read_settings_run g w2 c Hdrv). cbv zeta.
  change (axis_index (this w2)) with (axis_index (this w)). fold s.
  set (w3 := says w2 _).
  unfold bind at 1. rewrite (set_mode_run hd g w3 c Hdrv). cbv zeta.
  change (this w3) with (this w).
  exists e.
  destruct (Z.eqb_spec (select_mode hd (this w)) (TRINAMIC_RUN_MODE_STEALTHCHOP hd))
    as [E1|N1];
    [|destruct (Z.eqb_spec (select_mode hd (this w)) (TRINAMIC_RUN_MODE_COOLSTEP hd))
        as [E2|N2]; [|destruct Hmode; contradiction]];
    eexists; (split; [exact He|]);
    (split;
     [|unfold bind, modify; cbn [fst snd this out says say w3 w2 w1];
       rewrite <- ?app_assoc; cbn [app]; reflexivity]);
    intros m a Hin; cbn [In coolstep_baseline app] in Hin;
    repeat (destruct Hin as [Hin|Hin];
            [injection Hin as <- _; cbn [In];
             intros Hm; repeat (destruct Hm as [Hm|Hm]; [discriminate|]);
             contradiction|]);
    contradiction.
Qed.

(** X3: [init()] does not use the result of [test()]: with a driver
    object and a default mode that is StealthChop or CoolStep it returns
    normally whatever the probe answers, marks the object active and not
    homing, keeps the mode selected from the flags it started with, and
    has pushed the microsteps and the stallguard setting to the chip. *)
Theorem init_completes (hd : Header) (g : Globals) (w : world) (c : TMC.chip)
    (Hdrv : tmcstepper (this w) = Some c)
    (Hmode : select_mode hd (this w) = TRINAMIC_RUN_MODE_STEALTHCHOP hd \/
             select_mode hd (this w) = TRINAMIC_RUN_MODE_COOLSTEP hd) :
  let s := axis_settings g (axis_index (this w)) in
  let w' := snd (init hd g w) in
  fst (init hd g w) = Ok tt /\
  is_active (this w') = true /\
  _is_homing (this w') = false /\
  _mode (this w') = select_mode hd (this w) /\
  regs_of (out w') TMC.microsteps = Some [VInt (microsteps s)] /\
  regs_of (out w') TMC.sgt = Some [VInt (stallguard s)] /\
  regs_of (out w') TMC.begin = Some [].
Proof.
  intros s w'. unfold w'.
  destruct (init_run hd g w c Hdrv Hmode) as (e & tail & He & Htail & ->).
  fold s. cbn [fst snd this out is_active _is_homing _mode with_is_active
                   with_is_homing with_mode].
  assert (Hkeep : forall m, In m [TMC.begin; TMC.microsteps; TMC.sgt] ->
                  forall rf, fold_left write tail rf m = rf m).
  { intros m Hm. induction tail as [|x tail IH]; intros rf; [reflexivity|].
    cbn [fold_left]. rewrite IH.
    - destruct x; cbn [write]; try reflexivity.
      destruct (TMC.method_eq_dec m m0) as [->|]; [|reflexivity].
      exfalso. apply (Htail m0 args); [now left|assumption].
    - intros m' a Hin. apply (Htail m' a). now right. }
  do 4 (split; [reflexivity|]).
  rewrite !regs_of_app.
  rewrite !Hkeep by (cbn [In]; tauto).
  destruct e; try discriminate; repeat split; reflexivity.
Qed.

Lemma init_completes_witness :
  let w := snd (sample_new 2130) in
  TMC.test_connection (chip sample_disconnected) = 1 /\
  fst (init sample_header sample_disconnected w) = Ok tt /\
  is_active (this (snd (init sample_header sample_disconnected w))) = true.
Proof.
  intros w. split; [reflexivity|].
  destruct (init_completes sample_header sample_disconnected w TMC.TMC2130Stepper
              eq_refl (or_intror eq_refl)) as (H1 & H2 & _).
  split; assumption.
Defined.

(** ** The mode machine and the disable line *)

(** X4: whatever mode it selects, and even when the threshold computation
    of the stallguard mode faults, [set_mode] leaves the off-time at a
    non-zero value (5 in StealthChop, 3 otherwise): the driver is never
    left electrically off. *)
Theorem set_mode_turns_driver_on (hd : Header) (g : Globals) (w : world) (c : TMC.chip)
    (Hdrv : tmcstepper (this w) = Some c) :
  regs_of (out (snd (set_mode hd g w))) TMC.toff =
    Some [VInt (if select_mode hd (this w) =? TRINAMIC_RUN_MODE_STEALTHCHOP hd
                then 5 else 3)].
Proof.
  rewrite (set_mode_run hd g w c Hdrv). cbv zeta.
  destruct (_ =? TRINAMIC_RUN_MODE_STEALTHCHOP hd);
    [|destruct (_ =? TRINAMIC_RUN_MODE_COOLSTEP hd);
      [|destruct (calc_tstep hd g _ _ (IEEE.f32_of_f64 (IEEE.f64_of_Z 150)));
        [destruct (calc_tstep hd g _ _ (IEEE.f32_of_f64 (IEEE.f64_of_Z 60)))|]]];
    cbn [snd says out]; rewrite regs_of_app; reflexivity.
Qed.

Lemma set_mode_turns_driver_on_witness :
  regs_of (out (snd (set_mode sample_header (sample_globals 0)
                       {| this := with_is_homing true (this (snd (sample_new 2130)));
                          out := [] |}))) TMC.toff
  = Some [VInt 3].
Proof.
  exact (set_mode_turns_driver_on sample_header (sample_globals 0)
           {| this := with_is_homing true (this (snd (sample_new 2130)));
              out := [] |} TMC.TMC2130Stepper eq_refl).
Defined.

(** X5: [set_mode] is idempotent: a second call right after a first one
    returns the same result and leaves the same object and the same
    register contents. *)
Theorem set_mode_idempotent (hd : Header) (g : Globals) (w : world) (c : TMC.chip)
    (Hdrv : tmcstepper (this w) = Some c) :
  let once := set_mode hd g w in
  let twice := set_mode hd g (snd once) in
  fst twice = fst once /\
  this (snd twice) = this (snd once) /\
  forall m, regs_of (out (snd twice)) m = regs_of (out (snd once)) m.
Proof.
  intros once twice. unfold twice, once.
  rewrite (set_mode_run hd g w c Hdrv). cbv zeta.
  destruct (select_mode hd (this w) =? TRINAMIC_RUN_MODE_STEALTHCHOP hd) eqn:E1;
    [|destruct (select_mode hd (this w) =? TRINAMIC_RUN_MODE_COOLSTEP hd) eqn:E2;
      [|destruct (calc_tstep hd g (axis_index (this w)) (homing_feed_rate g)
                             (IEEE.f32_of_f64 (IEEE.f64_of_Z 150))) eqn:Ca;
        [destruct (calc_tstep hd g (axis_index (this w)) (homing_feed_rate g)
                              (IEEE.f32_of_f64 (IEEE.f64_of_Z 60))) eqn:Cb|]]];
    cbn [snd fst];
    match goal with
    | |- context [set_mode hd g ?x] =>
        rewrite (set_mode_run hd g x c Hdrv); cbv zeta;
        change (select_mode hd (this x)) with (select_mode hd (this w));
        change (axis_index (this x)) with (axis_index (this w))
    end;
    rewrite ?E1, ?E2, ?Ca, ?Cb; cbn [fst snd says this out];
    (split; [reflexivity|split; [reflexivity|]]);
    intros m; rewrite !regs_of_app; cbn;
    repeat (destruct (TMC.method_eq_dec m _) as [->|?]; [reflexivity|]);
    reflexivity.
Qed.

Lemma set_mode_idempotent_witness :
  let w := snd (sample_ready 2130) in
  regs_of (out (snd (set_mode sample_header (sample_globals 16)
                       (snd (set_mode sample_header (sample_globals 16) w)))))
          TMC.toff
  = regs_of (out (snd (set_mode sample_header (sample_globals 16) w))) TMC.toff.
Proof.
  intros w.
  exact (proj2 (proj2 (set_mode_idempotent sample_header (sample_globals 16) w
                         TMC.TMC2130Stepper eq_refl)) TMC.toff).
Defined.

(** X6: without USE_TRINAMIC_ENABLE, [set_disable] only writes the disable
    pin: it makes no driver call and returns normally even on an object
    that has no driver. *)
Theorem set_disable_pin_only (hd : Header) (g : Globals) (w : world) (disable : bool)
    (Hen : USE_TRINAMIC_ENABLE hd = false) :
  set_disable hd g disable w =
    (Ok tt, say w (digitalWrite (disable_pin (this w)) (Z.b2z disable))).
Proof. unfold set_disable. run. now rewrite Hen. Qed.

Lemma set_disable_pin_only_witness :
  set_disable sample_header_pin_only (sample_globals 16) true (snd (sample_new 1234))
  = (Ok tt, say (snd (sample_new 1234)) (digitalWrite 13 1)).
Proof.
  exact (set_disable_pin_only sample_header_pin_only (sample_globals 16)
           (snd (sample_new 1234)) true eq_refl).
Defined.

(** X9: [set_homing_mode(false)] always selects the default run mode,
    whatever the homing flag, and overwrites the stored homing strategy
    with 0. *)
Theorem set_homing_mode_false_default (hd : Header) (g : Globals) (w : world)
    (Hst : TRINAMIC_HOMING_STALLGUARD hd <> 0) :
  let w' := snd (set_homing_mode hd g false w) in
  _mode (this w') = TRINAMIC_RUN_MODE hd /\
  _homing_mode (this w') = 0 /\
  _is_homing (this w') = _is_homing (this w).
Proof.
  set (w0 := {| this := with_homing_mode 0 (this w); out := out w |}).
  change (set_homing_mode hd g false w) with (set_mode hd g w0).
  assert (Hs : select_mode hd (this w0) = TRINAMIC_RUN_MODE hd).
  { unfold select_mode, w0.
    cbn [this _is_homing _homing_mode with_homing_mode].
    destruct (Z.eqb_spec 0 (TRINAMIC_HOMING_STALLGUARD hd)); [congruence|].
    now rewrite andb_false_r. }
  cbv zeta. rewrite set_mode_object, Hs. repeat split.
Qed.

Lemma set_homing_mode_false_default_witness :
  let w := {| this := with_is_homing true (this (snd (sample_ready 2130)));
              out := [] |} in
  _mode (this (snd (set_homing_mode sample_header (sample_globals 16) false w)))
  = 1.
Proof.
  intros w.
  exact (proj1 (set_homing_mode_false_default sample_header (sample_globals 16) w
                  ltac:(discriminate))).
Defined.

(** X10: [test] and [debug_message] only query the chip: they return
    normally on an object with a driver, leave the object and every
    register as they were, and emit at most one message. *)
Theorem queries_do_not_configure (hd : Header) (g : Globals) (w : world) (c : TMC.chip)
    (Hdrv : tmcstepper (this w) = Some c) :
  (exists b fmt args,
     test hd g w = (Ok b, say w (grbl_msg_sendf fmt args))) /\
  (debug_message g w = (Ok tt, w) \/
   exists fmt args, debug_message g w = (Ok tt, say w (grbl_msg_sendf fmt args))) /\
  (forall m, regs_of (out (snd (test hd g w))) m = regs_of (out w) m) /\
  (forall m, regs_of (out (snd (debug_message g w))) m = regs_of (out w) m) /\
  this (snd (test hd g w)) = this w /\
  this (snd (debug_message g w)) = this w.
Proof.
  assert (Ht : exists b fmt args,
             test hd g w = (Ok b, say w (grbl_msg_sendf fmt args))).
  { rewrite (test_run hd g w c Hdrv). cbv zeta.
    destruct (_ =? 1); [|destruct (_ =? 2)];
      eexists; eexists; eexists; reflexivity. }
  assert (Hd : debug_message g w = (Ok tt, w) \/
               exists fmt args,
                 debug_message g w = (Ok tt, say w (grbl_msg_sendf fmt args))).
  { unfold debug_message. run. rewrite (query_some g _ w c Hdrv). cbn.
    destruct (not_moving _); [left; reflexivity|right].
    rewrite !(query_some g _ w c Hdrv). eexists; eexists; reflexivity. }
  split; [exact Ht|]. split; [exact Hd|].
  destruct Ht as (b & fmt & args & ->).
  assert (Hd' : (forall m, regs_of (out (snd (debug_message g w))) m
                           = regs_of (out w) m) /\
                this (snd (debug_message g w)) = this w).
  { destruct Hd as [->|(fmt' & args' & ->)]; cbn [snd say out this];
      rewrite ?regs_of_app; split; reflexivity. }
  cbn [snd say out this]. rewrite regs_of_app.
  repeat split; try reflexivity; apply Hd'.
Qed.

Lemma queries_do_not_configure_witness :
  let w := snd (sample_ready 2130) in
  regs_of (out (snd (test sample_header sample_disconnected w))) TMC.toff
  = regs_of (out w) TMC.toff.
Proof.
  intros w.
  destruct (queries_do_not_configure sample_header sample_disconnected w
              TMC.TMC2130Stepper eq_refl) as (_ & _ & H & _).
  exact (H TMC.toff).
Defined.

(** ** The threshold calculation at its edges *)

Lemma u32_of_float_range (x : spec_float) (r : Z) :
  IEEE.u32_of_float x = Some r -> 0 <= r < 2 ^ 32.
Proof.
  destruct x as [s|s| |s m e]; cbn [IEEE.u32_of_float]; try discriminate.
  - intros H. injection H as <-. lia.
  - pose proof (trunc_mag_nonneg m e) as H0. destruct s.
    + destruct (_ =? 0); [|discriminate]. intros H. injection H as <-. lia.
    + destruct (Z.ltb_spec (IEEE.trunc_mag m e) (2 ^ 32)) as [Hlt|Hge];
        [|discriminate].
      intros Hr. injection Hr as <-. lia.
Qed.

Lemma u32_of_float_floor (prec emax : Z) (x : spec_float) (r : Z) :
  nonneg prec emax x = true ->
  IEEE.u32_of_float x = Some r ->
  (IZR r <= B2R x < IZR r + 1)%R.
Proof.
  destruct x as [[|]|[|]| |[|] m e]; cbn [nonneg negb andb IEEE.u32_of_float];
    try discriminate.
  - intros _ H. injection H as <-. cbn. lra.
  - intros _. destruct (_ <? _); [|discriminate]. intros H. injection H as <-.
    apply trunc_mag_floor.
Qed.

(** X7: a value returned by [calc_tstep] fits [uint32_t]; on positive
    finite inputs it is the integer part of the float computed by the
    second assignment. *)
Theorem calc_tstep_is_floor (hd : Header) (g : Globals) (axis : Z)
    (speed percent : spec_float) (r : Z)
    (Hclk : posfin 53 1024 (TRINAMIC_FCLK hd) = true)
    (Hspm : posfin 24 128 (steps_per_mm (axis_settings g axis)) = true)
    (Hms : In (microsteps (axis_settings g axis)) microstep_settings)
    (Hspeed : posfin 24 128 speed = true)
    (Hpercent : posfin 24 128 percent = true)
    (Hr : calc_tstep hd g axis speed percent = Ok r) :
  0 <= r < 2 ^ 32 /\
  (IZR r <= B2R (tstep_value (TRINAMIC_FCLK hd)
                             (step_rate (axis_settings g axis) speed) percent)
   < IZR r + 1)%R.
Proof.
  rewrite calc_tstep_eq in Hr. cbv zeta in Hr.
  destruct (microsteps (axis_settings g axis) =? 0); [discriminate|].
  destruct (IEEE.u32_of_float _) as [n|] eqn:Hu; [|discriminate].
  injection Hr as <-. split; [now apply (u32_of_float_range _ _ Hu)|].
  apply (u32_of_float_floor 24 128); [|assumption].
  apply tstep_value_nonneg; try assumption.
  apply step_rate_nonneg; try assumption. now apply posfin_nonneg.
Qed.

Lemma calc_tstep_is_floor_witness :
  0 <= 1406 < 2 ^ 32 /\
  (IZR 1406 <= B2R (tstep_value (TRINAMIC_FCLK sample_header)
                                (step_rate (axis_settings (sample_globals 16) 0)
                                           (IEEE.f32_of_Z 600))
                                (IEEE.f32_of_Z 150))
   < IZR 1406 + 1)%R.
Proof.
  apply (calc_tstep_is_floor sample_header (sample_globals 16) 0
           (IEEE.f32_of_Z 600) (IEEE.f32_of_Z 150) 1406);
    try reflexivity.
  vm_compute. tauto.
Defined.

(** X8: at speed zero the step rate is zero, the clock is divided by zero
    and [calc_tstep] has no defined result, for every valid setting. *)
Theorem calc_tstep_zero_speed (hd : Header) (g : Globals) (axis : Z)
    (sign : bool) (percent : spec_float)
    (Hclk : posfin 53 1024 (TRINAMIC_FCLK hd) = true)
    (Hspm : posfin 24 128 (steps_per_mm (axis_settings g axis)) = true)
    (Hms : In (microsteps (axis_settings g axis)) microstep_settings)
    (Hpercent : posfin 24 128 percent = true) :
  step_rate (axis_settings g axis) (S754_zero sign) = S754_zero sign /\
  calc_tstep hd g axis (S754_zero sign) percent = Fault float_to_uint_range.
Proof.
  pose proof (widen_posfin _ Hspm) as Ps.
  pose proof (microstep_factor_posfin _ Hms) as Pf.
  pose proof (widen_posfin _ Hpercent) as Pp.
  assert (Hrate : step_rate (axis_settings g axis) (S754_zero sign) = S754_zero sign).
  { unfold step_rate.
    destruct (IEEE.f64_of_f32 (steps_per_mm (axis_settings g axis)))
      as [| | |[|] m1 e1]; try discriminate.
    destruct (IEEE.f64_of_f32 (microstep_factor _)) as [| | |[|] m2 e2];
      try discriminate.
    destruct sign; reflexivity. }
  split; [assumption|].
  rewrite calc_tstep_eq. cbv zeta.
  assert (Hnz : (microsteps (axis_settings g axis) =? 0) = false).
  { apply Z.eqb_neq. intros H0. rewrite H0 in Hms. cbn in Hms.
    repeat (destruct Hms as [Hms|Hms]; [discriminate|]). contradiction. }
  rewrite Hnz, Hrate. unfold tstep_value.
  destruct (TRINAMIC_FCLK hd) as [| | |[|] mc ec]; try discriminate.
  destruct (IEEE.f64_of_f32 percent) as [| | |[|] mp ep]; try discriminate.
  destruct sign; reflexivity.
Qed.

Lemma calc_tstep_zero_speed_witness :
  step_rate (axis_settings (sample_globals 16) 0) (S754_zero false)
    = S754_zero false /\
  calc_tstep sample_header (sample_globals 16) 0 (S754_zero false)
             (IEEE.f32_of_Z 150)
  = Fault float_to_uint_range.
Proof.
  exact (calc_tstep_zero_speed sample_header (sample_globals 16) 0 false
           (IEEE.f32_of_Z 150) eq_refl eq_refl ltac:(vm_compute; tauto) eq_refl).
Defined.

(** X11: the stallguard window is ordered: for a positive finite homing
    feed rate, whenever the 150 percent threshold is computed the 60
    percent threshold is computed too and is not above it, so [set_mode]
    in the stallguard mode then returns normally with THIGH at most
    TCOOLTHRS. *)
Theorem stallguard_window_ordered (hd : Header) (g : Globals) (w : world)
    (c : TMC.chip) (a : Z)
    (Hdrv : tmcstepper (this w) = Some c)
    (Hss : TRINAMIC_RUN_MODE_STEALTHCHOP hd <> TRINAMIC_RUN_MODE_STALLGUARD hd)
    (Hcs : TRINAMIC_RUN_MODE_COOLSTEP hd <> TRINAMIC_RUN_MODE_STALLGUARD hd)
    (Hmode : select_mode hd (this w) = TRINAMIC_RUN_MODE_STALLGUARD hd)
    (Hclk : posfin 53 1024 (TRINAMIC_FCLK hd) = true)
    (Hspm : posfin 24 128
              (steps_per_mm (axis_settings g (axis_index (this w)))) = true)
    (Hms : In (microsteps (axis_settings g (axis_index (this w))))
              microstep_settings)
    (Hrate : posfin 24 128 (homing_feed_rate g) = true)
    (Ha : calc_tstep hd g (axis_index (this w)) (homing_feed_rate g)
                     (IEEE.f32_of_f64 (IEEE.f64_of_Z 150)) = Ok a) :
  exists b,
    calc_tstep hd g (axis_index (this w)) (homing_feed_rate g)
               (IEEE.f32_of_f64 (IEEE.f64_of_Z 60)) = Ok b /\
    0 <= b <= a /\
    set_mode hd g w =
      (Ok tt,
       {| this := with_mode (TRINAMIC_RUN_MODE_STALLGUARD hd) (this w);
          out := out w ++ coolstep_baseline ++
                 [tmc TMC.TCOOLTHRS [VInt a]; tmc TMC.THIGH [VInt b]] |}).
Proof.
  set (s := axis_settings g (axis_index (this w))) in *.
  assert (Hb : exists b,
             calc_tstep hd g (axis_index (this w)) (homing_feed_rate g)
                        (IEEE.f32_of_f64 (IEEE.f64_of_Z 60)) = Ok b /\
             0 <= b <= a).
  { revert Ha. rewrite !calc_tstep_eq. cbv zeta. fold s.
    destruct (microsteps s =? 0); [discriminate|].
    destruct (IEEE.u32_of_float
                (tstep_value _ _ (IEEE.f32_of_f64 (IEEE.f64_of_Z 150))))
      as [n|] eqn:Hu; [|discriminate].
    intros Hn. injection Hn as <-.
    pose proof (step_rate_nonneg s Hspm Hms _ (posfin_nonneg _ _ _ Hrate)) as Nr.
    destruct (u32_of_float_mono 24 128
                (tstep_value (TRINAMIC_FCLK hd) (step_rate s (homing_feed_rate g))
                             (IEEE.f32_of_f64 (IEEE.f64_of_Z 60)))
                (tstep_value (TRINAMIC_FCLK hd) (step_rate s (homing_feed_rate g))
                             (IEEE.f32_of_f64 (IEEE.f64_of_Z 150)))
                n prec32) as (b & Hb & Hbn); try assumption.
    - now apply tstep_value_nonneg.
    - now apply tstep_value_nonneg.
    - now apply tstep_value_mono.
    - exists b. rewrite Hb. auto. }
  destruct Hb as (b & Hb & Hba). exists b. split; [assumption|].
  split; [assumption|].
  rewrite (set_mode_run hd g w c Hdrv). cbv zeta. rewrite Hmode, Ha, Hb.
  destruct (Z.eqb_spec (TRINAMIC_RUN_MODE_STALLGUARD hd)
                       (TRINAMIC_RUN_MODE_STEALTHCHOP hd)); [congruence|].
  destruct (Z.eqb_spec (TRINAMIC_RUN_MODE_STALLGUARD hd)
                       (TRINAMIC_RUN_MODE_COOLSTEP hd)); [congruence|].
  reflexivity.
Qed.

Lemma stallguard_window_ordered_witness :
  let w := {| this := with_is_homing true (this (snd (sample_ready 2130)));
              out := [] |} in
  exists b,
    calc_tstep sample_header (sample_globals 16) (axis_index (this w))
               (homing_feed_rate (sample_globals 16))
               (IEEE.f32_of_f64 (IEEE.f64_of_Z 60)) = Ok b /\
    0 <= b <= 1406 /\
    set_mode sample_header (sample_globals 16) w =
      (Ok tt,
       {| this := with_mode 2 (this w);
          out := out w ++ coolstep_baseline ++
                 [tmc TMC.TCOOLTHRS [VInt 1406]; tmc TMC.THIGH [VInt b]] |}).
Proof.
  intros w.
  apply (stallguard_window_ordered sample_header (sample_globals 16) w
           TMC.TMC2130Stepper 1406 eq_refl);
    try reflexivity; try discriminate.
  vm_compute. tauto.
Defined.

(** X12: [set_mode] writes only the registers of the mode it enters: in
    StealthChop it leaves the CoolStep registers (blank time, hysteresis,
    filter, diag1 and both thresholds) as they were, and in the other
    modes it leaves [en_pwm_mode] and [pwm_autoscale] as they were, so a
    silent-stepping bit set earlier stays set. *)
Theorem set_mode_keeps_other_registers (hd : Header) (g : Globals) (w : world)
    (c : TMC.chip) (Hdrv : tmcstepper (this w) = Some c) :
  let w' := snd (set_mode hd g w) in
  (select_mode hd (this w) = TRINAMIC_RUN_MODE_STEALTHCHOP hd ->
   forall m, In m [TMC.tbl; TMC.hysteresis_start; TMC.hysteresis_end; TMC.sfilt;
                   TMC.diag1_pushpull; TMC.diag1_stall; TMC.TCOOLTHRS; TMC.THIGH] ->
             regs_of (out w') m = regs_of (out w) m) /\
  (select_mode hd (this w) <> TRINAMIC_RUN_MODE_STEALTHCHOP hd ->
   forall m, In m [TMC.en_pwm_mode; TMC.pwm_autoscale] ->
             regs_of (out w') m = regs_of (out w) m) /\
  (forall m, In m [TMC.begin; TMC.setSPISpeed; TMC.microsteps; TMC.rms_current;
                   TMC.sgt] ->
             regs_of (out w') m = regs_of (out w) m).
Proof.
  intros w'. unfold w'. rewrite (set_mode_run hd g w c Hdrv). cbv zeta.
  destruct (Z.eqb_spec (select_mode hd (this w)) (TRINAMIC_RUN_MODE_STEALTHCHOP hd))
    as [E1|N1];
    [|destruct (_ =? TRINAMIC_RUN_MODE_COOLSTEP hd);
      [|destruct (calc_tstep hd g _ _ (IEEE.f32_of_f64 (IEEE.f64_of_Z 150)));
        [destruct (calc_tstep hd g _ _ (IEEE.f32_of_f64 (IEEE.f64_of_Z 60)))|]]];
    cbn [snd says out];
    (split; [intros Hm|split; [intros Hm|]]); try contradiction;
    intros m Hin; cbn [In] in Hin;
    rewrite regs_of_app;
    repeat (destruct Hin as [<-|Hin]; [reflexivity|]); contradiction.
Qed.

Lemma set_mode_keeps_other_registers_witness :
  let w := {| this := with_is_homing true (this (snd (sample_ready 2130)));
              out := [tmc TMC.en_pwm_mode [VInt 1]] |} in
  regs_of (out (snd (set_mode sample_header (sample_globals 16) w)))
          TMC.en_pwm_mode
  = Some [VInt 1].
Proof.
  intros w.
  destruct (set_mode_keeps_other_registers sample_header (sample_globals 16) w
              TMC.TMC2130Stepper eq_refl) as (_ & H & _).
  exact (H ltac:(discriminate) TMC.en_pwm_mode (or_introl eq_refl)).
Defined.
